(** * Label sets of k8s.io/apimachinery/pkg/labels (labels.go)

    A shallow embedding of [labels.go]: the [Set] type (a Go
    [map[string]string]), its canonical rendering, the set algebra
    ([Conflicts], [Merge], [Equals]) and the selector parser
    [ConvertSelectorToLabelsMap], followed by the properties proved about
    them.

    Go strings are byte sequences; they are embedded as [string], whose
    characters are the 256 values of [ascii].  A Go map is embedded as a
    [gmap string string]. *)

From Stdlib Require Import Strings.String Strings.Ascii NArith.
From stdpp Require Import base strings list sorting gmap fin_maps fin_map_dom.

(** ** Go library functions used by labels.go *)

(** [strings.Join(elems, sep)]. *)
Fixpoint Join (elems : list string) (sep : string) : string :=
  match elems with
  | [] => ""
  | [x] => x
  | x :: rest => x +:+ sep +:+ Join rest sep
  end.

(** [strings.Split(s, sep)] for a separator of one byte, which is how
    labels.go calls it (["," ] and ["="]): the pieces between the
    occurrences of [sep], one more than there are occurrences, so that the
    empty string splits into one empty piece. *)
Fixpoint Split (s : string) (sep : ascii) : list string :=
  match s with
  | "" => [""]
  | String c rest =>
      if Ascii.eqb c sep then "" :: Split rest sep
      else match Split rest sep with
           | piece :: pieces => String c piece :: pieces
           | [] => [String c ""]
           end
  end.

(** The byte of a character, as a number. *)
Definition code (c : ascii) : N := N_of_ascii c.

(** [unicode.IsSpace] on the UTF-8 encodings of the runes it accepts.  One
    byte: U+0009..U+000D and U+0020. *)
Definition isSpace1 (a : ascii) : bool :=
  let n := code a in ((9 <=? n) && (n <=? 13) || (n =? 32))%N.

(** Two bytes: U+0085 (C2 85) and U+00A0 (C2 A0). *)
Definition isSpace2 (a b : ascii) : bool :=
  ((code a =? 194) && ((code b =? 133) || (code b =? 160)))%N.

(** Three bytes: U+1680 (E1 9A 80), U+2000..U+200A (E2 80 80..8A),
    U+2028, U+2029 (E2 80 A8, A9), U+202F (E2 80 AF), U+205F (E2 81 9F)
    and U+3000 (E3 80 80). *)
Definition isSpace3 (a b c : ascii) : bool :=
  let '(x, y, z) := (code a, code b, code c) in
  ((x =? 225) && (y =? 154) && (z =? 128)
   || (x =? 226) && (y =? 128)
      && ((128 <=? z) && (z <=? 138) || (z =? 168) || (z =? 169) || (z =? 175))
   || (x =? 226) && (y =? 129) && (z =? 159)
   || (x =? 227) && (y =? 128) && (z =? 128))%N.

(** [strings.TrimLeftFunc(s, unicode.IsSpace)] on bytes: runes are removed
    from the front while the first rune is white space.  A rune that is
    white space is recognised by its encoding; any other first byte, also an
    invalid one, stops the trimming. *)
Fixpoint trimLeft (s : list ascii) : list ascii :=
  match s with
  | [] => []
  | a :: s1 =>
      if isSpace1 a then trimLeft s1
      else match s1 with
           | [] => s
           | b :: s2 =>
               if isSpace2 a b then trimLeft s2
               else match s2 with
                    | [] => s
                    | c :: s3 => if isSpace3 a b c then trimLeft s3 else s
                    end
           end
  end.

(** [strings.TrimRightFunc(s, unicode.IsSpace)], on the reversed bytes: the
    last rune is found from the end of the string, so its bytes come in
    reverse. *)
Fixpoint trimRightRev (s : list ascii) : list ascii :=
  match s with
  | [] => []
  | c :: s1 =>
      if isSpace1 c then trimRightRev s1
      else match s1 with
           | [] => s
           | b :: s2 =>
               if isSpace2 b c then trimRightRev s2
               else match s2 with
                    | [] => s
                    | a :: s3 => if isSpace3 a b c then trimRightRev s3 else s
                    end
           end
  end.

(** [strings.TrimSpace(s)]: leading white space is removed, then trailing
    white space. *)
Definition TrimSpace (s : string) : string :=
  string_of_list_ascii
    (reverse (trimRightRev (reverse (trimLeft (list_ascii_of_string s))))).

(** The order of Go's [<] on strings: byte by byte, a proper prefix first. *)
Definition string_le (a b : string) : Prop := String.leb a b = true.

#[global] Instance string_le_dec : RelDecision string_le.
Proof. intros a b. unfold string_le. apply _. Defined.

(** [sort.StringSlice(x).Sort()]: the slice in increasing order.  Go's sort
    is not stable, which cannot be seen on strings, where two elements that
    compare equal are the same. *)
Definition Sort (x : list string) : list string := merge_sort string_le x.

(** ** labels.go *)

(** [type Set map[string]string].  A nil map reads like the empty one. *)
Abbreviation LabelSet := (gmap string string).

(** The three queries of the [Labels] interface. *)
Class Labels (T : Type) := {
  Has : T → string → bool;
  Get : T → string → string;
  Lookup : T → string → string * bool
}.

(** [Set] implements [Labels]: a missing label reads as the zero value
    [""]. *)
#[global] Instance Set_Labels : Labels LabelSet := {
  Has ls label := bool_decide (is_Some (ls !! label));
  Get ls label := default "" (ls !! label);
  Lookup ls label := (default "" (ls !! label), bool_decide (is_Some (ls !! label)))
}.

(** [for key, value := range ls] visits every entry once, in an order Go
    leaves open.  The loops below take the visited entries as a list; the
    functions run them on [map_to_list], one such order, and the lemmas
    named [..._order] show that the order is not observable. *)

(** [func (ls Set) String() string], on the entries in the order visited. *)
Definition Set_String_range (entries : list (string * string)) : string :=
  let selector :=
    foldl (λ selector '(key, value), (selector ++ [key +:+ "=" +:+ value])%list)
          [] entries in
  Join (Sort selector) ",".

Definition Set_String (ls : LabelSet) : string :=
  Set_String_range (map_to_list ls).

(** [func FormatLabels(labelMap map[string]string) string]. *)
Definition FormatLabels (labelMap : LabelSet) : string :=
  let l := Set_String labelMap in
  if String.eqb l "" then "<none>" else l.

(** The loop of [Conflicts]: [for k, v := range small], probing [big]. *)
Fixpoint Conflicts_range (big : LabelSet) (entries : list (string * string))
  : bool :=
  match entries with
  | [] => false
  | (k, v) :: rest =>
      match big !! k with
      | Some val =>
          if negb (String.eqb val v) then true else Conflicts_range big rest
      | None => Conflicts_range big rest
      end
  end.

(** [func Conflicts(labels1, labels2 Set) bool]. *)
Definition Conflicts (labels1 labels2 : LabelSet) : bool :=
  let '(small, big) :=
    if (size labels2 <? size labels1)%nat then (labels2, labels1)
    else (labels1, labels2) in
  Conflicts_range big (map_to_list small).

(** [for k, v := range labels { mergedMap[k] = v }]. *)
Definition assign_range (mergedMap : LabelSet)
    (entries : list (string * string)) : LabelSet :=
  foldl (λ mergedMap '(k, v), <[k := v]> mergedMap) mergedMap entries.

(** [func Merge(labels1, labels2 Set) Set], as a function of the contents
    of the two maps to the contents of the map returned. *)
Definition Merge (labels1 labels2 : LabelSet) : LabelSet :=
  let mergedMap := ∅ in
  let mergedMap := assign_range mergedMap (map_to_list labels1) in
  let mergedMap := assign_range mergedMap (map_to_list labels2) in
  mergedMap.

(** The loop of [Equals]: [for k, v := range labels1]. *)
Fixpoint Equals_range (labels2 : LabelSet) (entries : list (string * string))
  : bool :=
  match entries with
  | [] => true
  | (k, v) :: rest =>
      match labels2 !! k with
      | None => false
      | Some value =>
          if negb (String.eqb value v) then false else Equals_range labels2 rest
      end
  end.

(** [func Equals(labels1, labels2 Set) bool]. *)
Definition Equals (labels1 labels2 : LabelSet) : bool :=
  if negb (size labels1 =? size labels2)%nat then false
  else Equals_range labels2 (map_to_list labels1).

(** ** Maps as references

    A Go map value is a reference: [nil], or the address of a map that
    every copy of the value shares.  Whether a function writes through its
    arguments is a question about the store of maps, which this part makes
    explicit. *)
Module Store.

Definition addr := positive.

Inductive ref := nil | ptr (a : addr).

#[global] Instance ref_eq_dec : EqDecision ref.
Proof. solve_decision. Defined.

(** The maps allocated so far. *)
Abbreviation store := (gmap addr LabelSet).

(** A reference a Go program can hold: nil or allocated. *)
Definition valid (h : store) (r : ref) : Prop :=
  match r with nil => True | ptr a => is_Some (h !! a) end.

(** Reading through a reference; a nil map reads as the empty map. *)
Definition load (h : store) (r : ref) : LabelSet :=
  match r with nil => ∅ | ptr a => default ∅ (h !! a) end.

(** [Set{}]: a new empty map, at an address not in use. *)
Definition alloc (h : store) : store * ref :=
  let a := fresh (dom h) in (<[a := ∅]> h, ptr a).

(** [m[k] = v].  Go panics on a nil map: no store results. *)
Definition assign (h : store) (m : ref) (k v : string) : option store :=
  match m with
  | nil => None
  | ptr a =>
      match h !! a with
      | Some contents => Some (<[a := <[k := v]> contents]> h)
      | None => None
      end
  end.

(** [for k, v := range labels { mergedMap[k] = v }] on the store. *)
Fixpoint assign_range (h : store) (mergedMap : ref)
    (entries : list (string * string)) : option store :=
  match entries with
  | [] => Some h
  | (k, v) :: rest =>
      h ← assign h mergedMap k v; assign_range h mergedMap rest
  end.

(** [func Merge(labels1, labels2 Set) Set] on the store: the store after
    the call and the reference returned. *)
Definition Merge (h : store) (labels1 labels2 : ref) : option (store * ref) :=
  let '(h, mergedMap) := alloc h in
  h ← assign_range h mergedMap (map_to_list (load h labels1));
  h ← assign_range h mergedMap (map_to_list (load h labels2));
  Some (h, mergedMap).

End Store.

(** ** The selector parser *)

(** The validation that [ConvertSelectorToLabelsMap] calls lives outside
  labels.go: [field.ToPath] of package [field], and [validateLabelKey] and
  [validateLabelValue] of selector.go.  They are parameters of the
  parser; each validator returns the error it found, if any. *)
Class Validator := {
PathOption : Type;
Path : Type;
ToPath : list PathOption → Path;
Aggregate : Type;
validateLabelKey : string → Path → option Aggregate;
validateLabelValue : string → string → Path → option Aggregate
}.

Section Parser.
Context {V : Validator}.

(** The errors of the parser: the one it makes itself with [fmt.Errorf],
    given by its message, and the ones of the validators. *)
Inductive error :=
| Errorf (msg : string)
| Invalid (err : Aggregate).

(** [fmt.Errorf("invalid selector: %s", l)]: [%s] prints a slice of
    strings between brackets, separated by spaces. *)
Definition invalid_selector (l : list string) : error :=
  Errorf ("invalid selector: " +:+ "[" +:+ Join l " " +:+ "]").

(** [for _, label := range labels { ... }] of
    [ConvertSelectorToLabelsMap]. *)
Fixpoint parse_range (opts : list PathOption) (labelsMap : LabelSet)
    (labels : list string) : LabelSet * option error :=
  match labels with
  | [] => (labelsMap, None)
  | label :: rest =>
      let l := Split label "=" in
      if negb (length l =? 2)%nat then (labelsMap, Some (invalid_selector l))
      else
        let key := TrimSpace (nth 0 l "") in
        match validateLabelKey key (ToPath opts) with
        | Some err => (labelsMap, Some (Invalid err))
        | None =>
            let value := TrimSpace (nth 1 l "") in
            match validateLabelValue key value (ToPath opts) with
            | Some err => (labelsMap, Some (Invalid err))
            | None => parse_range opts (<[key := value]> labelsMap) rest
            end
        end
  end.

(** [func ConvertSelectorToLabelsMap(selector string,
    opts ...field.PathOption) (Set, error)]. *)
Definition ConvertSelectorToLabelsMap (selector : string)
    (opts : list PathOption) : LabelSet * option error :=
  let labelsMap := ∅ in
  if (String.length selector =? 0)%nat then (labelsMap, None)
  else
    let labels := Split selector "," in
    parse_range opts labelsMap labels.

End Parser.

Arguments error : clear implicits.
Arguments error {V}.

(** ** Vocabulary of the properties *)

(** An entry as [String] renders it: [key+"="+value]. *)
Definition rendered (entry : string * string) : string :=
  entry.1 +:+ "=" +:+ entry.2.

(** The byte [c] does not occur in [s]. *)
Fixpoint free_of (c : ascii) (s : string) : Prop :=
  match s with
  | "" => True
  | String x rest => x ≠ c ∧ free_of c rest
  end.

(** The keys hold no ["="], and neither keys nor values hold [","]. *)
Definition separable (ls : LabelSet) : Prop :=
  ∀ key value, ls !! key = Some value →
    free_of "=" key ∧ free_of "," key ∧ free_of "," value.

(** The bytes begin with a white-space rune. *)
Definition space_first (s : list ascii) : bool :=
  match s with
  | a :: b :: c :: _ => isSpace1 a || isSpace2 a b || isSpace3 a b c
  | [a; b] => isSpace1 a || isSpace2 a b
  | [a] => isSpace1 a
  | [] => false
  end.

(** The bytes, given from the last one back, end with a white-space rune. *)
Definition space_last (s : list ascii) : bool :=
  match s with
  | c :: b :: a :: _ => isSpace1 c || isSpace2 b c || isSpace3 a b c
  | [c; b] => isSpace1 c || isSpace2 b c
  | [c] => isSpace1 c
  | [] => false
  end.

(** The string has white space in front or at the end. *)
Definition space_around (s : string) : bool :=
  space_first (list_ascii_of_string s)
  || space_last (reverse (list_ascii_of_string s)).

(** A sequence of runes of one kind, each given by its encoding of one, two
    or three bytes. *)
Inductive runs (p1 : ascii → bool) (p2 : ascii → ascii → bool)
    (p3 : ascii → ascii → ascii → bool) : list ascii → Prop :=
| runs_nil : runs p1 p2 p3 []
| runs_1 a s : p1 a = true → runs p1 p2 p3 s → runs p1 p2 p3 (a :: s)
| runs_2 a b s : p2 a b = true → runs p1 p2 p3 s → runs p1 p2 p3 (a :: b :: s)
| runs_3 a b c s :
    p3 a b c = true → runs p1 p2 p3 s → runs p1 p2 p3 (a :: b :: c :: s).

(** The bytes are white-space runes and nothing else. *)
Definition blank : list ascii → Prop := runs isSpace1 isSpace2 isSpace3.

(** The same, for bytes given from the last one back. *)
Definition blank_rev : list ascii → Prop :=
  runs isSpace1 (λ c b, isSpace2 b c) (λ c b a, isSpace3 a b c).

(** A byte that begins the encoding of a white-space rune. *)
Definition lead_byte (x : ascii) : Prop :=
  (9 ≤ code x ≤ 13 ∨ code x = 32 ∨ code x = 194 ∨ 225 ≤ code x ≤ 227)%N.

(** [raw] is [core] with white space, or nothing, added in front and at the
    end, and [core] has no white space in front or at its end: [core] is
    [raw] trimmed. *)
Definition padded (raw core : string) : Prop :=
  ∃ ws1 ws2 : list ascii,
    blank ws1 ∧ blank ws2
    ∧ list_ascii_of_string raw
      = (ws1 ++ list_ascii_of_string core ++ ws2)%list
    ∧ space_around core = false.

(** The token is [key=value], with one ["="], up to white space around the
    key and around the value. *)
Definition reads (label key value : string) : Prop :=
  ∃ rawk rawv : string,
    label = rawk +:+ "=" +:+ rawv
    ∧ free_of "=" rawk ∧ free_of "=" rawv
    ∧ padded rawk key ∧ padded rawv value.

(** The key and the value that the parser reads from a token with one
    ["="]. *)
Definition token_key (label : string) : string :=
  TrimSpace (nth 0 (Split label "=") "").

Definition token_value (label : string) : string :=
  TrimSpace (nth 1 (Split label "=") "").

(** The map accumulated from a list of tokens, each read as a key and a
    value, from left to right, on top of [m] and from the empty map. *)
Definition accumulate (m : LabelSet) (labels : list string) : LabelSet :=
  foldl (λ m label, <[token_key label := token_value label]> m) m labels.

Definition accumulated (labels : list string) : LabelSet :=
  accumulate ∅ labels.

(** A token that the loop of the parser accepts: it splits into two parts
    at ["="] and both validators pass. *)
Definition token_ok `{V : Validator} (opts : list PathOption)
    (label : string) : Prop :=
  length (Split label "=") = 2
  ∧ validateLabelKey (token_key label) (ToPath opts) = None
  ∧ validateLabelValue (token_key label) (token_value label) (ToPath opts)
    = None.

(** An entry that [String] renders so that the parser reads it back: no
    ["="] and no [","] in the key or in the value, no white space in front
    of them or at their end, and both validators pass. *)
Definition parseable `{V : Validator} (opts : list PathOption)
    (key value : string) : Prop :=
  free_of "=" key ∧ free_of "," key ∧ free_of "=" value ∧ free_of "," value
  ∧ space_around key = false ∧ space_around value = false
  ∧ validateLabelKey key (ToPath opts) = None
  ∧ validateLabelValue key value (ToPath opts) = None.

(** Two validators to run the parser on: one that accepts everything, and
    one that refuses the empty key, as the validator of selector.go does. *)
Definition accept_all : Validator := {|
  PathOption := unit; Path := unit; ToPath := λ _, tt; Aggregate := string;
  validateLabelKey := λ _ _, None;
  validateLabelValue := λ _ _ _, None
|}.

Definition refuse_empty_key : Validator := {|
  PathOption := unit; Path := unit; ToPath := λ _, tt; Aggregate := string;
  validateLabelKey := λ key _,
    if String.eqb key "" then Some "name part must be non-empty" else None;
  validateLabelValue := λ _ _ _, None
|}.

(** ** Examples *)

Example TrimSpace_ex1 : TrimSpace "  a " = "a".
Proof. reflexivity. Qed.

Example TrimSpace_ex2 :
  TrimSpace (String (ascii_of_N 194) (String (ascii_of_N 160) "a b"))
  = "a b".
Proof. reflexivity. Qed.

Example TrimSpace_ex3 :
  TrimSpace (String (ascii_of_N 160) "a") = String (ascii_of_N 160) "a".
Proof. reflexivity. Qed.

Example Split_ex2 : Split "" "," = [""].
Proof. reflexivity. Qed.

Example Conflicts_ex1 :
  Conflicts {["a" := "1"]} (<["b" := "2"]> {["a" := "3"]}) = true
  ∧ Conflicts {["a" := "1"]} {["b" := "2"]} = false.
Proof. by vm_compute. Qed.

Example Split_ex1 : Split "a=b,c=d" "," = ["a=b"; "c=d"].
Proof. reflexivity. Qed.

Example Set_String_ex1 :
  Set_String (<["b" := "2"]> (<["a" := "1"]> ∅)) = "a=1,b=2".
Proof. vm_compute. reflexivity. Qed.

Example FormatLabels_ex1 : FormatLabels ∅ = "<none>".
Proof. vm_compute. reflexivity. Qed.

Example FormatLabels_ex2 : FormatLabels {["a" := "b"]} = "a=b".
Proof. vm_compute. reflexivity. Qed.

Example Parse_ex1 :
  ConvertSelectorToLabelsMap (V := accept_all) "a=b,c=d" []
  = (<["c" := "d"]> (<["a" := "b"]> ∅), None).
Proof. vm_compute. reflexivity. Qed.

Example Parse_ex2 :
  ConvertSelectorToLabelsMap (V := accept_all) "a=b=c" []
  = (∅, Some (Errorf "invalid selector: [a b c]")).
Proof. vm_compute. reflexivity. Qed.

Example Parse_ex3 :
  ConvertSelectorToLabelsMap (V := accept_all) "a" []
  = (∅, Some (Errorf "invalid selector: [a]")).
Proof. vm_compute. reflexivity. Qed.

Example Parse_ex4 :
  ConvertSelectorToLabelsMap (V := accept_all) "  a = b " []
  = ({["a" := "b"]}, None).
Proof. vm_compute. reflexivity. Qed.

Example Parse_ex5 :
  ConvertSelectorToLabelsMap (V := refuse_empty_key) "=b,c" []
  = (∅, Some (Invalid (V := refuse_empty_key) "name part must be non-empty")).
Proof. vm_compute. reflexivity. Qed.

(** ** The order on strings *)

Lemma string_compare_trans (a b c : string) :
  String.compare a b ≠ Gt → String.compare b c ≠ Gt → String.compare a c ≠ Gt.
Proof.
  revert b c. induction a as [|x a IH]; intros [|y b] [|z c]; simpl; try done.
  unfold Ascii.compare.
  destruct (N.compare_spec (N_of_ascii x) (N_of_ascii y)),
    (N.compare_spec (N_of_ascii y) (N_of_ascii z)),
    (N.compare_spec (N_of_ascii x) (N_of_ascii z));
    try done; try lia; eauto.
Qed.

Lemma string_le_compare (a b : string) :
  string_le a b ↔ String.compare a b ≠ Gt.
Proof.
  unfold string_le, String.leb. destruct (String.compare a b); naive_solver.
Qed.

#[global] Instance string_le_total : Total string_le.
Proof. intros a b. apply String.leb_total. Qed.

#[global] Instance string_le_trans : Transitive string_le.
Proof.
  intros a b c. rewrite !string_le_compare. apply string_compare_trans.
Qed.

#[global] Instance string_le_antisymm : AntiSymm (=) string_le.
Proof. intros a b. apply String.leb_antisym. Qed.

#[global] Instance string_le_refl : Reflexive string_le.
Proof. intros a. by destruct (total string_le a a). Qed.

(** A sorted list is determined by its elements. *)
Lemma Sort_Sorted (x : list string) : StronglySorted string_le (Sort x).
Proof. apply StronglySorted_merge_sort; apply _. Qed.

Lemma Sort_Permutation (x : list string) : Sort x ≡ₚ x.
Proof. apply merge_sort_Permutation. Qed.

Lemma Sort_unique (x y : list string) :
  y ≡ₚ x → StronglySorted string_le y → y = Sort x.
Proof.
  intros Hperm Hsorted.
  apply (StronglySorted_unique string_le); [done| apply Sort_Sorted |].
  by rewrite Sort_Permutation.
Qed.

Lemma Sort_order (x y : list string) : x ≡ₚ y → Sort x = Sort y.
Proof.
  intros Hperm. apply Sort_unique; [| apply Sort_Sorted].
  by rewrite Sort_Permutation.
Qed.

(** ** The canonical rendering *)

Lemma selector_fold (acc : list string) (entries : list (string * string)) :
  foldl (λ selector '(key, value), (selector ++ [key +:+ "=" +:+ value])%list)
        acc entries
  = (acc ++ (rendered <$> entries))%list.
Proof.
  revert acc. induction entries as [|[k v] entries IH]; intros acc; simpl.
  - by rewrite app_nil_r.
  - rewrite IH, <- app_assoc. done.
Qed.

Lemma Set_String_range_eq (entries : list (string * string)) :
  Set_String_range entries = Join (Sort (rendered <$> entries)) ",".
Proof. unfold Set_String_range. by rewrite selector_fold. Qed.

(** The order in which the map is visited is not observable. *)
Lemma Set_String_order (entries1 entries2 : list (string * string)) :
  entries1 ≡ₚ entries2 → Set_String_range entries1 = Set_String_range entries2.
Proof.
  intros Hperm. rewrite !Set_String_range_eq.
  by rewrite (Sort_order _ (rendered <$> entries2)) by by rewrite Hperm.
Qed.

(** C1, as stated, fails: the entries of [{"a": "x", "a1": "y"}] come out as
    ["a1=y,a=x"], the key ["a1"] before the key ["a"], because the rendered
    strings are what is sorted and the byte ["1"] is below ["="].  So no
    arrangement of the entries in the order of their keys is the output. *)
Lemma Set_String_not_in_key_order :
  ¬ ∃ entries : list (string * string),
      entries ≡ₚ map_to_list (<["a1" := "y"]> (<["a" := "x"]> ∅) : LabelSet)
      ∧ Sorted (λ e1 e2, string_le e1.1 e2.1) entries
      ∧ Set_String (<["a1" := "y"]> (<["a" := "x"]> ∅))
        = Join (rendered <$> entries) ",".
Proof.
  intros (entries & Hperm & Hsorted & Hout).
  vm_compute map_to_list in Hperm. symmetry in Hperm.
  apply Permutation_length_2_inv in Hperm as [-> | ->].
  - apply Sorted_inv in Hsorted as [_ Hhd]. apply HdRel_inv in Hhd.
    vm_compute in Hhd. discriminate.
  - vm_compute in Hout. discriminate.
Qed.

(** C1, amended: whatever the order in which the map is visited, [String]
    returns the rendered entries [key=value] in increasing order of the
    rendered strings (byte by byte), joined by one comma and nothing else;
    it is the same string for every order of visit, and the empty string for
    the empty set. *)
Theorem Set_String_sorted (ls : LabelSet) (entries : list (string * string)) :
  entries ≡ₚ map_to_list ls →
  ∃ selector : list string,
    selector ≡ₚ rendered <$> map_to_list ls
    ∧ StronglySorted string_le selector
    ∧ Set_String_range entries = Join selector ","
    ∧ Set_String_range entries = Set_String ls
    ∧ (ls = ∅ → Set_String_range entries = "").
Proof.
  intros Hperm. exists (Sort (rendered <$> entries)). split_and!.
  - by rewrite Sort_Permutation, Hperm.
  - apply Sort_Sorted.
  - apply Set_String_range_eq.
  - by apply Set_String_order.
  - intros ->. rewrite map_to_list_empty in Hperm.
    apply Permutation_nil_r in Hperm as ->. done.
Qed.

Lemma Set_String_sorted_witness :
  ∃ selector : list string,
    selector ≡ₚ rendered <$> map_to_list (<["a1" := "y"]> (<["a" := "x"]> ∅) : LabelSet)
    ∧ StronglySorted string_le selector
    ∧ Set_String_range [("a", "x"); ("a1", "y")] = Join selector ","
    ∧ Set_String_range [("a", "x"); ("a1", "y")]
      = Set_String (<["a1" := "y"]> (<["a" := "x"]> ∅))
    ∧ ((<["a1" := "y"]> (<["a" := "x"]> ∅) : LabelSet) = ∅
       → Set_String_range [("a", "x"); ("a1", "y")] = "").
Proof.
  apply (Set_String_sorted (<["a1" := "y"]> (<["a" := "x"]> ∅))).
  vm_compute map_to_list. apply Permutation_swap.
Defined.

(** ** Conflicts *)

Lemma String_eqb_negb (a b : string) : negb (String.eqb a b) = true ↔ a ≠ b.
Proof. rewrite negb_true_iff. apply String.eqb_neq. Qed.

Lemma Conflicts_range_true (big : LabelSet) (entries : list (string * string)) :
  Conflicts_range big entries = true
  ↔ ∃ k v val, (k, v) ∈ entries ∧ big !! k = Some val ∧ val ≠ v.
Proof.
  induction entries as [|[k v] rest IH]; simpl.
  - split; [done|]. intros (k & v & val & Hin & _). by apply elem_of_nil in Hin.
  - destruct (big !! k) as [val|] eqn:Hk.
    + destruct (negb (String.eqb val v)) eqn:Hne.
      * apply String_eqb_negb in Hne. split; [|done]. intros _.
        exists k, v, val. split_and!; [left|done|done].
      * apply negb_false_iff, String.eqb_eq in Hne as ->. rewrite IH.
        split.
        -- intros (k' & v' & val' & Hin & ?). exists k', v', val'.
           split; [by right|done].
        -- intros (k' & v' & val' & Hin & Hbig & Hne).
           apply elem_of_cons in Hin as [[= -> ->]|Hin];
             [congruence | by exists k', v', val'].
    + rewrite IH. split.
      * intros (k' & v' & val' & Hin & ?). exists k', v', val'.
        split; [by right|done].
      * intros (k' & v' & val' & Hin & Hbig & Hne).
        apply elem_of_cons in Hin as [[= -> ->]|Hin];
          [congruence | by exists k', v', val'].
Qed.

(** The loop of [Conflicts] gives the same answer in every order of visit. *)
Lemma Conflicts_order (big : LabelSet) (entries1 entries2 : list (string * string)) :
  entries1 ≡ₚ entries2 →
  Conflicts_range big entries1 = Conflicts_range big entries2.
Proof.
  intros Hperm. apply eq_true_iff_eq. rewrite !Conflicts_range_true.
  by setoid_rewrite Hperm.
Qed.

Lemma Conflicts_range_map (big small : LabelSet) :
  Conflicts_range big (map_to_list small) = true
  ↔ ∃ k v val, small !! k = Some v ∧ big !! k = Some val ∧ val ≠ v.
Proof.
  rewrite Conflicts_range_true. by setoid_rewrite elem_of_map_to_list.
Qed.

Lemma Conflicts_true (labels1 labels2 : LabelSet) :
  Conflicts labels1 labels2 = true
  ↔ ∃ k v1 v2, labels1 !! k = Some v1 ∧ labels2 !! k = Some v2 ∧ v1 ≠ v2.
Proof.
  unfold Conflicts. destruct (size labels2 <? size labels1)%nat;
    rewrite Conflicts_range_map.
  - split; intros (k & x & y & ? & ? & ?); exists k; eauto.
  - split; intros (k & x & y & ? & ? & ?); exists k; eauto 10.
Qed.

(** C2: [Conflicts] answers true exactly when some key is in both sets with
    two different values, and so does not depend on the order of its
    arguments, although it visits only the smaller one. *)
Theorem Conflicts_spec (a b : LabelSet) :
  (Conflicts a b = true
   ↔ ∃ k v1 v2, a !! k = Some v1 ∧ b !! k = Some v2 ∧ v1 ≠ v2)
  ∧ Conflicts a b = Conflicts b a.
Proof.
  split; [apply Conflicts_true|].
  apply eq_true_iff_eq. rewrite !Conflicts_true.
  split; intros (k & x & y & ? & ? & ?); exists k; eauto.
Qed.

(** ** Equals *)

Lemma Equals_range_true (labels2 : LabelSet) (entries : list (string * string)) :
  Equals_range labels2 entries = true
  ↔ ∀ k v, (k, v) ∈ entries → labels2 !! k = Some v.
Proof.
  induction entries as [|[k v] rest IH]; simpl.
  - split; [|done]. intros _ k v Hin. by apply elem_of_nil in Hin.
  - destruct (labels2 !! k) as [value|] eqn:Hk.
    + destruct (negb (String.eqb value v)) eqn:Hne.
      * apply String_eqb_negb in Hne. split; [done|]. intros Hall.
        specialize (Hall k v (list_elem_of_here _ _)). congruence.
      * apply negb_false_iff, String.eqb_eq in Hne as ->. rewrite IH.
        split.
        -- intros Hall k' v' Hin.
           apply elem_of_cons in Hin as [[= -> ->]|Hin]; auto.
        -- intros Hall k' v' Hin. apply Hall. by right.
    + split; [done|]. intros Hall.
      specialize (Hall k v (list_elem_of_here _ _)). congruence.
Qed.

(** The loop of [Equals] gives the same answer in every order of visit. *)
Lemma Equals_order (labels2 : LabelSet) (entries1 entries2 : list (string * string)) :
  entries1 ≡ₚ entries2 →
  Equals_range labels2 entries1 = Equals_range labels2 entries2.
Proof.
  intros Hperm. apply eq_true_iff_eq. rewrite !Equals_range_true.
  by setoid_rewrite Hperm.
Qed.

Lemma Equals_true (labels1 labels2 : LabelSet) :
  Equals labels1 labels2 = true
  ↔ size labels1 = size labels2
    ∧ ∀ k v, labels1 !! k = Some v → labels2 !! k = Some v.
Proof.
  unfold Equals. destruct (size labels1 =? size labels2)%nat eqn:Hsize; simpl.
  - apply Nat.eqb_eq in Hsize. rewrite Equals_range_true.
    setoid_rewrite elem_of_map_to_list. tauto.
  - apply Nat.eqb_neq in Hsize. split; [done | tauto].
Qed.

(** Equal size and containment one way is equality of the maps. *)
Lemma size_contained_eq (a b : LabelSet) :
  size a = size b ∧ (∀ k v, a !! k = Some v → b !! k = Some v) ↔ a = b.
Proof.
  split; [|by intros ->]. intros [Hsize Hsub].
  apply map_subseteq_size_eq; [|lia]. by apply map_subseteq_spec.
Qed.

(** C5: [Equals] answers true exactly when the two sets have the same size
    and every key of the first is in the second with the same value; that
    is the case exactly when the two sets are the same mapping, so [Equals]
    does not depend on the order of its arguments. *)
Theorem Equals_spec (a b : LabelSet) :
  (Equals a b = true
   ↔ size a = size b ∧ ∀ k v, a !! k = Some v → b !! k = Some v)
  ∧ (size a = size b ∧ (∀ k v, a !! k = Some v → b !! k = Some v) ↔ a = b)
  ∧ Equals a b = Equals b a.
Proof.
  split_and!; [apply Equals_true | apply size_contained_eq |].
  apply eq_true_iff_eq. rewrite !Equals_true, !size_contained_eq. naive_solver.
Qed.

(** ** Merge *)

Lemma assign_range_union (mergedMap : LabelSet) (entries : list (string * string)) :
  NoDup entries.*1 →
  assign_range mergedMap entries = list_to_map entries ∪ mergedMap.
Proof.
  unfold assign_range. revert mergedMap.
  induction entries as [|[k v] rest IH]; intros mergedMap Hnodup; simpl.
  - by rewrite (left_id_L ∅ (∪)).
  - apply NoDup_cons in Hnodup as [Hk Hnodup]. rewrite IH by done.
    rewrite <- insert_union_l. symmetry. apply insert_union_r.
    by apply not_elem_of_list_to_map_1.
Qed.

Lemma assign_range_entries (mergedMap labels : LabelSet)
    (entries : list (string * string)) :
  entries ≡ₚ map_to_list labels →
  assign_range mergedMap entries = labels ∪ mergedMap.
Proof.
  intros Hperm.
  assert (NoDup entries.*1) as Hnodup
    by (rewrite Hperm; apply NoDup_fst_map_to_list).
  rewrite assign_range_union by done. f_equal.
  rewrite <- (list_to_map_to_list labels). by apply list_to_map_proper.
Qed.

(** The second map is laid over the first. *)
Lemma Merge_union (labels1 labels2 : LabelSet) :
  Merge labels1 labels2 = labels2 ∪ labels1.
Proof.
  unfold Merge. cbv zeta.
  rewrite (assign_range_entries _ labels2), (assign_range_entries _ labels1)
    by reflexivity.
  by rewrite (right_id_L ∅ (∪)).
Qed.

(** X17: the two loops of [Merge] give the same map in whatever order each
    of them visits its argument. *)
Lemma Merge_order (labels1 labels2 : LabelSet)
    (entries1 entries2 : list (string * string)) :
  entries1 ≡ₚ map_to_list labels1 → entries2 ≡ₚ map_to_list labels2 →
  assign_range (assign_range ∅ entries1) entries2 = Merge labels1 labels2.
Proof.
  intros H1 H2. rewrite Merge_union.
  rewrite (assign_range_entries _ labels2), (assign_range_entries _ labels1) by done.
  by rewrite (right_id_L ∅ (∪)).
Qed.

Lemma Merge_lookup (labels1 labels2 : LabelSet) (k : string) :
  Merge labels1 labels2 !! k
  = match labels2 !! k with Some v => Some v | None => labels1 !! k end.
Proof.
  rewrite Merge_union, lookup_union.
  destruct (labels2 !! k), (labels1 !! k); done.
Qed.

(** C3: in [Merge(a, b)] every key of [b] reads as in [b], and every key of
    [a] that is not in [b] reads as in [a]. *)
Theorem Merge_Get (a b : LabelSet) (k : string) :
  (Has b k = true → Get (Merge a b) k = Get b k)
  ∧ (Has a k = true → Has b k = false → Get (Merge a b) k = Get a k).
Proof.
  simpl. rewrite Merge_lookup. split.
  - intros [v ->]%bool_decide_eq_true. done.
  - intros _ Hb%bool_decide_eq_false. apply eq_None_not_Some in Hb.
    by rewrite Hb.
Qed.

Lemma Merge_Get_witness :
  (Has ({["k" := "new"]} : LabelSet) "k" = true
   → Get (Merge (<["k" := "old"]> {["j" := "kept"]}) {["k" := "new"]}) "k"
     = Get ({["k" := "new"]} : LabelSet) "k")
  ∧ (Has (<["k" := "old"]> {["j" := "kept"]} : LabelSet) "j" = true
     → Has ({["k" := "new"]} : LabelSet) "j" = false
     → Get (Merge (<["k" := "old"]> {["j" := "kept"]}) {["k" := "new"]}) "j"
       = Get (<["k" := "old"]> {["j" := "kept"]} : LabelSet) "j").
Proof.
  split.
  - apply (Merge_Get (<["k" := "old"]> {["j" := "kept"]}) {["k" := "new"]} "k").
  - apply (Merge_Get (<["k" := "old"]> {["j" := "kept"]}) {["k" := "new"]} "j").
Defined.

(** C10: the keys of [Merge(a, b)] are the keys of [a] together with the
    keys of [b], no more and no fewer. *)
Theorem Merge_dom (a b : LabelSet) : dom (Merge a b) = dom a ∪ dom b.
Proof. rewrite Merge_union, dom_union_L. apply (comm_L (∪)). Qed.

(** ** Merge on the store of maps *)

Lemma store_assign_range (h : Store.store) (a : Store.addr)
    (contents : LabelSet) (entries : list (string * string)) :
  h !! a = Some contents →
  Store.assign_range h (Store.ptr a) entries
  = Some (<[a := assign_range contents entries]> h).
Proof.
  revert h contents.
  induction entries as [|[k v] rest IH]; intros h contents Ha; simpl.
  - by rewrite insert_id.
  - rewrite Ha. simpl.
    rewrite (IH _ (<[k := v]> contents)) by apply lookup_insert_eq.
    by rewrite insert_insert_eq.
Qed.

(** A reference held before an allocation reads the same after it, and
    after any writing to the new map. *)
Lemma load_insert_fresh (h : Store.store) (a : Store.addr)
    (contents : LabelSet) (r : Store.ref) :
  h !! a = None → Store.valid h r →
  Store.load (<[a := contents]> h) r = Store.load h r.
Proof.
  intros Ha Hr. destruct r as [|a']; [done|]. simpl in *.
  rewrite lookup_insert_ne; [done|]. intros ->. rewrite Ha in Hr.
  by destruct Hr.
Qed.

Lemma valid_not_fresh (h : Store.store) (a : Store.addr) (r : Store.ref) :
  h !! a = None → Store.valid h r → Store.ptr a ≠ r.
Proof.
  intros Ha Hr <-. simpl in Hr. rewrite Ha in Hr. by destruct Hr.
Qed.

(** C4: [Merge] allocates the map it returns and writes to nothing else.
    Started with two references that are nil or allocated, possibly the
    same, it returns a reference to an address that was not in use, so a
    reference different from both arguments; every map that was in the
    store, among them the two arguments, holds after the call what it held
    before; and the new map holds what [Merge] computes from the contents
    of the arguments. *)
Theorem Merge_inputs_untouched (h : Store.store) (labels1 labels2 : Store.ref) :
  Store.valid h labels1 → Store.valid h labels2 →
  ∃ (h' : Store.store) (a : Store.addr),
    Store.Merge h labels1 labels2 = Some (h', Store.ptr a)
    ∧ h !! a = None
    ∧ Store.ptr a ≠ labels1 ∧ Store.ptr a ≠ labels2
    ∧ Store.load h' labels1 = Store.load h labels1
    ∧ Store.load h' labels2 = Store.load h labels2
    ∧ (∀ a', a' ≠ a → h' !! a' = h !! a')
    ∧ Store.load h' (Store.ptr a)
      = Merge (Store.load h labels1) (Store.load h labels2).
Proof.
  intros H1 H2.
  assert (h !! fresh (dom h) = None) as Hfresh
    by (apply not_elem_of_dom, is_fresh).
  set (a := fresh (dom h)) in *.
  exists (<[a := Merge (Store.load h labels1) (Store.load h labels2)]> h), a.
  split_and!; try done.
  - unfold Store.Merge, Store.alloc. fold a.
    rewrite (store_assign_range _ a ∅) by apply lookup_insert_eq.
    simpl. rewrite insert_insert_eq.
    rewrite (store_assign_range _ a (assign_range ∅ (map_to_list
      (Store.load (<[a := ∅]> h) labels1)))) by apply lookup_insert_eq.
    simpl. rewrite insert_insert_eq.
    rewrite (load_insert_fresh h a _ labels1) by done.
    by rewrite (load_insert_fresh h a _ labels2) by done.
  - by apply (valid_not_fresh h).
  - by apply (valid_not_fresh h).
  - by apply load_insert_fresh.
  - by apply load_insert_fresh.
  - intros a' Hne. by rewrite lookup_insert_ne.
  - simpl. by rewrite lookup_insert_eq.
Qed.

(** The two arguments may be one and the same map. *)
Lemma Merge_inputs_untouched_witness :
  ∃ (h' : Store.store) (a : Store.addr),
    Store.Merge {[1%positive := {["k" := "v"]}]}
      (Store.ptr 1%positive) (Store.ptr 1%positive) = Some (h', Store.ptr a)
    ∧ ({[1%positive := {["k" := "v"]}]} : Store.store) !! a = None
    ∧ Store.ptr a ≠ Store.ptr 1%positive ∧ Store.ptr a ≠ Store.ptr 1%positive
    ∧ Store.load h' (Store.ptr 1%positive)
      = Store.load {[1%positive := {["k" := "v"]}]} (Store.ptr 1%positive)
    ∧ Store.load h' (Store.ptr 1%positive)
      = Store.load {[1%positive := {["k" := "v"]}]} (Store.ptr 1%positive)
    ∧ (∀ a', a' ≠ a
       → h' !! a' = ({[1%positive := {["k" := "v"]}]} : Store.store) !! a')
    ∧ Store.load h' (Store.ptr a)
      = Merge (Store.load {[1%positive := {["k" := "v"]}]} (Store.ptr 1%positive))
              (Store.load {[1%positive := {["k" := "v"]}]} (Store.ptr 1%positive)).
Proof.
  apply (Merge_inputs_untouched {[1%positive := {["k" := "v"]}]}
           (Store.ptr 1%positive) (Store.ptr 1%positive)); simpl;
    by rewrite lookup_singleton_eq.
Defined.

(** ** Trimming *)

Lemma trimLeft_id (s : list ascii) : space_first s = false → trimLeft s = s.
Proof.
  destruct s as [|a [|b [|c s]]]; simpl; [done| | |].
  - by intros ->.
  - intros [-> ->]%orb_false_iff. done.
  - intros [[-> ->]%orb_false_iff ->]%orb_false_iff. done.
Qed.

Lemma trimRightRev_id (s : list ascii) :
  space_last s = false → trimRightRev s = s.
Proof.
  destruct s as [|c [|b [|a s]]]; simpl; [done| | |].
  - by intros ->.
  - intros [-> ->]%orb_false_iff. done.
  - intros [[-> ->]%orb_false_iff ->]%orb_false_iff. done.
Qed.

Lemma trimLeft_length (s : list ascii) :
  length (trimLeft s) ≤ length s
  ∧ (space_first s = true → length (trimLeft s) < length s).
Proof.
  remember (length s) as n eqn:Hn. revert s Hn.
  induction n as [n IH] using lt_wf_ind. intros s ->.
  destruct s as [|a s1]; simpl; [done|].
  destruct (isSpace1 a) eqn:Ha.
  { destruct (IH (length s1) (Nat.lt_succ_diag_r _) s1 eq_refl) as [Hle _].
    split; [lia|]. destruct s1 as [|? [|? ?]]; simpl in *; lia. }
  destruct s1 as [|b s2]; simpl; [done|].
  destruct (isSpace2 a b) eqn:Hab.
  { destruct (IH (length s2) ltac:(simpl; lia) s2 eq_refl) as [Hle _].
    split; [lia|]. destruct s2; simpl in *; lia. }
  destruct s2 as [|c s3]; simpl; [done|].
  destruct (isSpace3 a b c) eqn:Habc; [|done].
  destruct (IH (length s3) ltac:(simpl; lia) s3 eq_refl) as [Hle _].
  split; simpl; lia.
Qed.

Lemma trimRightRev_length (s : list ascii) :
  length (trimRightRev s) ≤ length s
  ∧ (space_last s = true → length (trimRightRev s) < length s).
Proof.
  remember (length s) as n eqn:Hn. revert s Hn.
  induction n as [n IH] using lt_wf_ind. intros s ->.
  destruct s as [|c s1]; simpl; [done|].
  destruct (isSpace1 c) eqn:Hc.
  { destruct (IH (length s1) (Nat.lt_succ_diag_r _) s1 eq_refl) as [Hle _].
    split; [lia|]. destruct s1 as [|? [|? ?]]; simpl in *; lia. }
  destruct s1 as [|b s2]; simpl; [done|].
  destruct (isSpace2 b c) eqn:Hbc.
  { destruct (IH (length s2) ltac:(simpl; lia) s2 eq_refl) as [Hle _].
    split; [lia|]. destruct s2; simpl in *; lia. }
  destruct s2 as [|a s3]; simpl; [done|].
  destruct (isSpace3 a b c) eqn:Habc; [|done].
  destruct (IH (length s3) ltac:(simpl; lia) s3 eq_refl) as [Hle _].
  split; simpl; lia.
Qed.

(** [TrimSpace] leaves a string as it is exactly when the string has no
    white space in front or at its end. *)
Lemma TrimSpace_id (s : string) : TrimSpace s = s ↔ space_around s = false.
Proof.
  unfold TrimSpace, space_around. rewrite orb_false_iff. split.
  - intros Htrim. apply (f_equal list_ascii_of_string) in Htrim.
    rewrite list_ascii_of_string_of_list_ascii in Htrim.
    set (l := list_ascii_of_string s) in *.
    apply (f_equal length) in Htrim as Hlen. rewrite length_reverse in Hlen.
    destruct (trimLeft_length l) as [Hle1 Hlt1].
    destruct (trimRightRev_length (reverse (trimLeft l))) as [Hle2 Hlt2].
    rewrite length_reverse in Hle2, Hlt2.
    assert (space_first l = false) as Hfirst
      by (destruct (space_first l); [specialize (Hlt1 eq_refl); lia | done]).
    split; [done|]. rewrite trimLeft_id in Hlt2, Hlen by done.
    destruct (space_last (reverse l)); [specialize (Hlt2 eq_refl); lia | done].
  - intros [Hfirst Hlast].
    rewrite trimLeft_id, trimRightRev_id, reverse_involutive by
      (try rewrite trimLeft_id by done; done).
    apply string_of_list_ascii_of_string.
Qed.

(** ** Splitting and joining *)

Lemma Split_free (c : ascii) (s : string) : free_of c s → Split s c = [s].
Proof.
  induction s as [|x s IH]; simpl; [done|]. intros [Hne Hfree].
  apply Ascii.eqb_neq in Hne. by rewrite Hne, IH.
Qed.

Lemma Split_app_sep (c : ascii) (k rest : string) :
  free_of c k → Split (k +:+ String c rest) c = k :: Split rest c.
Proof.
  induction k as [|x k IH]; simpl.
  - by rewrite Ascii.eqb_refl.
  - intros [Hne Hfree]. apply Ascii.eqb_neq in Hne. by rewrite Hne, IH.
Qed.

Lemma free_of_app (c : ascii) (a b : string) :
  free_of c (a +:+ b) ↔ free_of c a ∧ free_of c b.
Proof. induction a as [|x a IH]; simpl; [tauto|]. rewrite IH. tauto. Qed.

(** A token with no ["="] in its key and its value splits into the two. *)
Lemma Split_rendered (key value : string) :
  free_of "=" key → free_of "=" value →
  Split (rendered (key, value)) "=" = [key; value].
Proof.
  intros Hk Hv.
  change (rendered (key, value)) with (key +:+ String "=" value).
  by rewrite Split_app_sep, Split_free.
Qed.

Lemma Split_Join (sel : list string) :
  sel ≠ [] → Forall (free_of ",") sel → Split (Join sel ",") "," = sel.
Proof.
  induction sel as [|x [|y rest] IH]; intros Hne Hfree; [done| |].
  - simpl. apply Split_free. by apply Forall_inv in Hfree.
  - apply Forall_cons in Hfree as [Hx Hfree].
    change (Join (x :: y :: rest) ",") with (x +:+ String "," (Join (y :: rest) ",")).
    by rewrite Split_app_sep, IH.
Qed.

Lemma append_empty_inv (a b : string) : a +:+ b = "" → a = "" ∧ b = "".
Proof. destruct a; [done | discriminate]. Qed.

Lemma Join_rendered_nonempty (entry : string * string) (rest : list string) :
  Join (rendered entry :: rest) "," ≠ "".
Proof.
  destruct rest as [|y rest]; simpl; unfold rendered.
  - intros [_ [=]]%append_empty_inv.
  - intros [[_ [=]]%append_empty_inv _]%append_empty_inv.
Qed.

(** ** The parser *)

Section ParserFacts.
Context `{V : Validator}.
Implicit Types (opts : list PathOption) (labels pre post : list string).

(** One turn of the loop on a token that is accepted. *)
Lemma parse_range_cons_ok opts (m : LabelSet) (label : string) labels :
  token_ok opts label →
  parse_range opts m (label :: labels)
  = parse_range opts (<[token_key label := token_value label]> m) labels.
Proof.
  intros (Hlen & Hkey & Hvalue). simpl. rewrite Hlen. simpl.
  fold (token_key label). rewrite Hkey.
  fold (token_value label). by rewrite Hvalue.
Qed.

(** The loop, when every token is accepted. *)
Lemma parse_range_ok opts (m : LabelSet) labels :
  Forall (token_ok opts) labels →
  parse_range opts m labels = (accumulate m labels, None).
Proof.
  revert m. induction labels as [|label labels IH]; intros m Hall; [done|].
  apply Forall_cons in Hall as [Hok Hall].
  rewrite parse_range_cons_ok by done. by rewrite IH.
Qed.

(** The loop stops at the first token that does not split in two. *)
Lemma parse_range_malformed opts (m : LabelSet) pre (bad : string) post :
  Forall (token_ok opts) pre →
  length (Split bad "=") ≠ 2 →
  parse_range opts m (pre ++ bad :: post)
  = (accumulate m pre, Some (invalid_selector (Split bad "="))).
Proof.
  revert m. induction pre as [|label pre IH]; intros m Hall Hbad.
  - simpl. apply Nat.eqb_neq in Hbad. by rewrite Hbad.
  - apply Forall_cons in Hall as [Hok Hall]. simpl app.
    rewrite parse_range_cons_ok by done. by rewrite IH.
Qed.

(** The loop succeeds only when every token is accepted: nothing but the
    two checks on each token by itself makes it fail. *)
Lemma parse_range_None opts (m m' : LabelSet) labels :
  parse_range opts m labels = (m', None) → Forall (token_ok opts) labels.
Proof.
  revert m. induction labels as [|label labels IH]; intros m Hrun; [done|].
  simpl in Hrun.
  destruct (length (Split label "=") =? 2)%nat eqn:Hlen; [|done].
  simpl in Hrun. fold (token_key label) in Hrun.
  destruct (validateLabelKey (token_key label) (ToPath opts)) eqn:Hkey; [done|].
  fold (token_value label) in Hrun.
  destruct (validateLabelValue (token_key label) (token_value label)
              (ToPath opts)) eqn:Hvalue; [done|].
  apply Nat.eqb_eq in Hlen. constructor; [done | by eapply IH].
Qed.

Lemma selector_nonempty (selector : string) :
  selector ≠ "" → (String.length selector =? 0)%nat = false.
Proof. by destruct selector. Qed.

(** A key reads as the value of its last token. *)
Lemma accumulate_other (m : LabelSet) labels (key : string) :
  Forall (λ later, token_key later ≠ key) labels →
  accumulate m labels !! key = m !! key.
Proof.
  revert m. induction labels as [|label labels IH]; intros m Hall; [done|].
  apply Forall_cons in Hall as [Hne Hall]. unfold accumulate in *. simpl.
  rewrite IH by done. by rewrite lookup_insert_ne.
Qed.

Lemma accumulate_last (m : LabelSet) pre (label : string) post :
  Forall (λ later, token_key later ≠ token_key label) post →
  accumulate m (pre ++ label :: post) !! token_key label
  = Some (token_value label).
Proof.
  intros Hpost. unfold accumulate. rewrite foldl_app. simpl.
  fold (accumulate (<[token_key label := token_value label]>
                      (foldl (λ m label, <[token_key label := token_value label]> m)
                         m pre)) post).
  rewrite accumulate_other by done. apply lookup_insert_eq.
Qed.

(** C6: the empty selector parses to the empty set, with no error. *)
Theorem Parse_empty opts : ConvertSelectorToLabelsMap "" opts = (∅, None).
Proof. reflexivity. Qed.

(** C7, amended: when the selector is not empty, some token does not split
    at ["="] into exactly two parts, and every token before the first such
    token passes both validators, the parser returns the syntax error for
    that token together with the map accumulated from the tokens before
    it; the tokens after it play no part. *)
Theorem parse_first_malformed opts (selector : string) pre (bad : string) post :
  selector ≠ "" →
  Split selector "," = pre ++ bad :: post →
  Forall (token_ok opts) pre →
  length (Split bad "=") ≠ 2 →
  ConvertSelectorToLabelsMap selector opts
  = (accumulated pre, Some (invalid_selector (Split bad "="))).
Proof.
  intros Hne Hsplit Hpre Hbad. unfold ConvertSelectorToLabelsMap.
  rewrite selector_nonempty by done. cbv zeta. rewrite Hsplit.
  by apply parse_range_malformed.
Qed.

End ParserFacts.

(** X14: the parser returns no error exactly on the empty selector and on
    the selectors of which every token, taken by itself, splits in two at
    ["="] and passes both validators. *)
Lemma parse_succeeds_iff `{V : Validator} (opts : list PathOption)
    (selector : string) :
  (ConvertSelectorToLabelsMap selector opts).2 = None
  ↔ selector = "" ∨ Forall (token_ok opts) (Split selector ",").
Proof.
  split.
  - intros Hrun. destruct selector as [|c selector]; [by left|right].
    unfold ConvertSelectorToLabelsMap in Hrun.
    rewrite selector_nonempty in Hrun by done. cbv zeta in Hrun.
    destruct (parse_range opts ∅ (Split (String c selector) ","))
      as [m err] eqn:Hloop.
    simpl in Hrun. subst err. by eapply parse_range_None.
  - intros [-> | Hall]; [done|].
    destruct selector as [|c selector]; [done|].
    unfold ConvertSelectorToLabelsMap. rewrite selector_nonempty by done.
    cbv zeta. by rewrite parse_range_ok.
Qed.

(** C7, as stated, fails when a token before the first malformed one is
    refused by a validator.  With a validator that refuses the empty key,
    the selector ["=b,c"] has the malformed token ["c"] after the token
    ["=b"], which splits in two; the parser returns the error of the
    validator and the empty map, not the syntax error for ["c"] with the map
    accumulated from ["=b"]. *)
Lemma parse_validation_error_first :
  Split "=b,c" "," = ["=b"] ++ "c" :: []
  ∧ Forall (λ label, length (Split label "=") = 2) ["=b"]
  ∧ length (Split "c" "=") ≠ 2
  ∧ ConvertSelectorToLabelsMap (V := refuse_empty_key) "=b,c" []
    = (∅, Some (Invalid (V := refuse_empty_key) "name part must be non-empty"))
  ∧ ConvertSelectorToLabelsMap (V := refuse_empty_key) "=b,c" []
    ≠ (accumulated ["=b"], Some (invalid_selector (Split "c" "="))).
Proof.
  split_and!; [done | by repeat constructor | by vm_compute | by vm_compute |].
  vm_compute. discriminate.
Qed.

Lemma parse_first_malformed_witness :
  ConvertSelectorToLabelsMap (V := accept_all) " a = b ,c=d=e,f" []
  = (accumulated [" a = b "], Some (invalid_selector (Split "c=d=e" "="))).
Proof.
  apply (parse_first_malformed (V := accept_all) [] " a = b ,c=d=e,f"
           [" a = b "] "c=d=e" ["f"]).
  - discriminate.
  - reflexivity.
  - repeat constructor.
  - vm_compute. discriminate.
Defined.

Example parse_duplicate_keys_ex :
  ConvertSelectorToLabelsMap (V := accept_all) "a=1,b=2,a=3" []
  = (<["b" := "2"]> {["a" := "3"]}, None).
Proof. vm_compute. reflexivity. Qed.

(** ** Rendering, then parsing *)

Section Roundtrip.
Context `{V : Validator}.
Implicit Types (opts : list PathOption) (entries : list (string * string)).

(** The token of a parseable entry is accepted and read back as the entry. *)
Lemma rendered_token opts (key value : string) :
  parseable opts key value →
  token_ok opts (rendered (key, value))
  ∧ token_key (rendered (key, value)) = key
  ∧ token_value (rendered (key, value)) = value.
Proof.
  intros (Hk1 & _ & Hv1 & _ & Hk%TrimSpace_id & Hv%TrimSpace_id & Hvk & Hvv).
  unfold token_ok, token_key, token_value.
  rewrite Split_rendered by done. simpl. by rewrite Hk, Hv.
Qed.

Lemma rendered_free_of_comma opts (key value : string) :
  parseable opts key value → free_of "," (rendered (key, value)).
Proof.
  intros (_ & Hk & _ & Hv & _). unfold rendered.
  rewrite !free_of_app. simpl. split_and!; done.
Qed.

(** On the tokens of parseable entries the loop of the parser does what the
    first loop of [Merge] does on the entries. *)
Lemma accumulate_rendered opts (m : LabelSet) entries :
  Forall (λ entry, parseable opts entry.1 entry.2) entries →
  Forall (token_ok opts) (rendered <$> entries)
  ∧ accumulate m (rendered <$> entries) = assign_range m entries.
Proof.
  revert m. induction entries as [|[k v] entries IH]; intros m Hall; [done|].
  apply Forall_cons in Hall as [Hkv Hall]. simpl in Hkv.
  destruct (rendered_token opts k v Hkv) as (Hok & Hkey & Hvalue).
  destruct (IH (<[k := v]> m) Hall) as [Hoks Hacc]. split.
  - by constructor.
  - change (accumulate m (rendered <$> (k, v) :: entries))
      with (accumulate (<[token_key (rendered (k, v))
                          := token_value (rendered (k, v))]> m)
              (rendered <$> entries)).
    by rewrite Hkey, Hvalue, Hacc.
Qed.

Lemma fmap_Permutation_inv {A B} (f : A → B) (l1 : list B) (l2 : list A) :
  l1 ≡ₚ f <$> l2 → ∃ l3, l1 = f <$> l3 ∧ l3 ≡ₚ l2.
Proof.
  intros Hperm. apply Permutation_map_inv in Hperm as (l3 & -> & Hperm).
  by exists l3.
Qed.

(** C9: a set whose keys and values hold no ["="] and no [","], have no
    white space around them and pass both validators is rendered by
    [String] to a selector that the parser reads without error, into a set
    that [Equals] finds equal to the first. *)
Theorem String_Parse_roundtrip opts (ls : LabelSet) :
  (∀ key value, ls !! key = Some value → parseable opts key value) →
  ∃ m : LabelSet,
    ConvertSelectorToLabelsMap (Set_String ls) opts = (m, None)
    ∧ Equals m ls = true.
Proof.
  intros Hls. exists ls. split; [|by apply Equals_true].
  unfold Set_String. rewrite Set_String_range_eq.
  destruct (fmap_Permutation_inv rendered (Sort (rendered <$> map_to_list ls))
              (map_to_list ls) (Sort_Permutation _)) as (entries & -> & Hperm).
  assert (Forall (λ entry, parseable opts entry.1 entry.2) entries) as Hall.
  { apply Forall_forall. intros [k v] Hin. rewrite Hperm in Hin.
    apply elem_of_map_to_list in Hin. by apply Hls. }
  destruct (accumulate_rendered opts ∅ entries Hall) as [Hoks Hacc].
  destruct entries as [|[k v] entries]; [|].
  - apply Permutation_nil_l in Hperm. symmetry in Hperm.
    by apply map_to_list_empty_iff in Hperm as ->.
  - unfold ConvertSelectorToLabelsMap.
    rewrite selector_nonempty by apply Join_rendered_nonempty.
    cbv zeta. rewrite Split_Join; [|done|].
    + rewrite parse_range_ok, Hacc by done.
      rewrite (assign_range_entries _ ls) by done.
      by rewrite (right_id_L ∅ (∪)).
    + apply Forall_fmap. eapply Forall_impl; [exact Hall|].
      intros [k' v'] Hkv. by eapply rendered_free_of_comma.
Qed.

End Roundtrip.

Lemma String_Parse_roundtrip_witness :
  ∃ m : LabelSet,
    ConvertSelectorToLabelsMap (V := refuse_empty_key)
      (Set_String (<["app.kubernetes.io/name" := "web"]> {["app" := ""]})) []
    = (m, None)
    ∧ Equals m (<["app.kubernetes.io/name" := "web"]> {["app" := ""]}) = true.
Proof.
  apply (String_Parse_roundtrip (V := refuse_empty_key) []
           (<["app.kubernetes.io/name" := "web"]> {["app" := ""]})).
  intros key value Hin. apply elem_of_map_to_list in Hin.
  vm_compute map_to_list in Hin.
  repeat (apply elem_of_cons in Hin as [[= -> ->]|Hin]);
    [| |by apply elem_of_nil in Hin];
    (repeat split; try discriminate).
Defined.

(** ** Merge, Conflicts and Equals together *)

Lemma Conflicts_false (a b : LabelSet) :
  Conflicts a b = false
  ↔ ∀ k v1 v2, a !! k = Some v1 → b !! k = Some v2 → v1 = v2.
Proof.
  rewrite <- not_true_iff_false, Conflicts_true. split.
  - intros Hno k v1 v2 Ha Hb. destruct (decide (v1 = v2)) as [|Hne]; [done|].
    destruct Hno. by exists k, v1, v2.
  - intros Hagree (k & v1 & v2 & Ha & Hb & Hne). by apply Hne, (Hagree k).
Qed.

Lemma agree_union_comm (a b : LabelSet) :
  (∀ k v1 v2, a !! k = Some v1 → b !! k = Some v2 → v1 = v2)
  ↔ b ∪ a = a ∪ b.
Proof.
  split.
  - intros Hagree. apply map_eq. intros k. rewrite !lookup_union.
    destruct (a !! k) as [v1|] eqn:Ha, (b !! k) as [v2|] eqn:Hb; simpl;
      try done.
    by rewrite (Hagree k v1 v2).
  - intros Heq k v1 v2 Ha Hb. apply (f_equal (.!! k)) in Heq.
    rewrite !lookup_union, Ha, Hb in Heq.
    change (Some v2 = Some v1) in Heq. congruence.
Qed.

Lemma agree_subseteq_union (a b : LabelSet) :
  (∀ k v1 v2, a !! k = Some v1 → b !! k = Some v2 → v1 = v2)
  ↔ a ⊆ b ∪ a.
Proof.
  rewrite map_subseteq_spec. split.
  - intros Hagree k v1 Ha. rewrite lookup_union, Ha.
    destruct (b !! k) as [v2|] eqn:Hb; simpl; [|done].
    by rewrite (Hagree k v1 v2).
  - intros Hsub k v1 v2 Ha Hb. specialize (Hsub k v1 Ha).
    rewrite lookup_union, Ha, Hb in Hsub.
    change (Some v2 = Some v1) in Hsub. congruence.
Qed.

(** X1: the order of the arguments of [Merge] matters exactly when the two
    sets conflict: [Merge(a, b)] and [Merge(b, a)] are the same set if and
    only if [Conflicts(a, b)] is false. *)
Theorem Merge_comm_iff_no_conflict (a b : LabelSet) :
  Merge a b = Merge b a ↔ Conflicts a b = false.
Proof. by rewrite !Merge_union, Conflicts_false, agree_union_comm. Qed.

(** X2: [Merge(a, b)] always holds every entry of [b]; it holds every entry
    of [a] if and only if [Conflicts(a, b)] is false. *)
Theorem Merge_contains (a b : LabelSet) :
  b ⊆ Merge a b ∧ (a ⊆ Merge a b ↔ Conflicts a b = false).
Proof.
  rewrite Merge_union, Conflicts_false, agree_subseteq_union.
  split; [apply map_union_subseteq_l | done].
Qed.

(** X3: the empty set is neutral for [Merge] on both sides, merging a set
    with itself gives the set back, and [Merge] is associative. *)
Theorem Merge_monoid (a b c : LabelSet) :
  Merge a ∅ = a ∧ Merge ∅ a = a ∧ Merge a a = a
  ∧ Merge (Merge a b) c = Merge a (Merge b c).
Proof.
  rewrite !Merge_union. split_and!.
  - apply (left_id_L ∅ (∪)).
  - apply (right_id_L ∅ (∪)).
  - apply (idemp_L (∪)).
  - apply (assoc_L (∪)).
Qed.

(** X4: [Merge(a, b)] has at least as many entries as each of [a] and [b],
    and at most as many as the two together. *)
Theorem Merge_size (a b : LabelSet) :
  size a ≤ size (Merge a b) ∧ size b ≤ size (Merge a b)
  ∧ size (Merge a b) ≤ size a + size b.
Proof.
  rewrite <- !size_dom, Merge_dom. split_and!.
  - apply subseteq_size, union_subseteq_l.
  - apply subseteq_size, union_subseteq_r.
  - rewrite size_union_alt.
    assert (size (dom b ∖ dom a) ≤ size (dom b))
      by apply subseteq_size, subseteq_difference_l, reflexivity.
    lia.
Qed.

(** X5: [Conflicts] is false for a set and itself, and false for two sets
    that share no key. *)
Theorem Conflicts_self_disjoint (a b : LabelSet) :
  Conflicts a a = false ∧ (dom a ## dom b → Conflicts a b = false).
Proof.
  rewrite !Conflicts_false. split.
  - intros k v1 v2 H1 H2. congruence.
  - intros Hdisj k v1 v2 Ha Hb. destruct (Hdisj k); apply elem_of_dom; eauto.
Qed.

Lemma Conflicts_self_disjoint_witness :
  Conflicts {["a" := "1"]} {["a" := "1"]} = false
  ∧ (dom ({["a" := "1"]} : LabelSet) ## dom ({["b" := "1"]} : LabelSet)
     → Conflicts {["a" := "1"]} {["b" := "1"]} = false).
Proof. apply (Conflicts_self_disjoint {["a" := "1"]} {["b" := "1"]}). Defined.

(** X6: what the [Labels] queries answer on [Merge(a, b)]: a label exists
    when it exists in [a] or in [b], and [Lookup] answers as on [b] for the
    labels of [b] and as on [a] for the others. *)
Theorem Merge_Lookup (a b : LabelSet) (label : string) :
  Has (Merge a b) label = Has a label || Has b label
  ∧ Lookup (Merge a b) label
    = if Has b label then Lookup b label else Lookup a label.
Proof.
  simpl. rewrite Merge_lookup.
  destruct (b !! label) as [v|] eqn:Hb; simpl.
  - by rewrite orb_true_r.
  - by rewrite orb_false_r.
Qed.

(** ** What the canonical rendering tells about the set *)

(** The output of [String], as the join of the rendered entries in some
    order. *)
Lemma Set_String_entries (ls : LabelSet) :
  ∃ entries : list (string * string),
    entries ≡ₚ map_to_list ls
    ∧ Set_String ls = Join (rendered <$> entries) ",".
Proof.
  destruct (fmap_Permutation_inv rendered (Sort (rendered <$> map_to_list ls))
              (map_to_list ls) (Sort_Permutation _)) as (entries & Heq & Hperm).
  exists entries. split; [done|].
  unfold Set_String. rewrite Set_String_range_eq. by rewrite Heq.
Qed.

Lemma entries_nil_empty (ls : LabelSet) : [] ≡ₚ map_to_list ls → ls = ∅.
Proof.
  intros Hperm. apply Permutation_nil_l in Hperm.
  by apply map_to_list_empty_iff.
Qed.

Lemma Join_rendered_not_free (entry : string * string) (rest : list string) :
  ¬ free_of "=" (Join (rendered entry :: rest) ",").
Proof.
  destruct rest as [|y rest]; simpl; unfold rendered;
    rewrite !free_of_app; simpl; intuition congruence.
Qed.

Lemma Set_String_empty_iff (ls : LabelSet) : Set_String ls = "" ↔ ls = ∅.
Proof.
  split; [|by intros ->].
  destruct (Set_String_entries ls) as ([|entry entries] & Hperm & ->).
  - intros _. by apply entries_nil_empty.
  - intros Hempty. by apply Join_rendered_nonempty in Hempty.
Qed.

(** X7: [FormatLabels] returns ["<none>"] for the empty map and for no
    other, returns what [String] returns for every other map, and never
    returns the empty string. *)
Theorem FormatLabels_spec (labelMap : LabelSet) :
  (FormatLabels labelMap = "<none>" ↔ labelMap = ∅)
  ∧ (labelMap ≠ ∅ → FormatLabels labelMap = Set_String labelMap)
  ∧ FormatLabels labelMap ≠ "".
Proof.
  unfold FormatLabels. cbv zeta.
  destruct (String.eqb_spec (Set_String labelMap) "") as [Hempty|Hne].
  - apply Set_String_empty_iff in Hempty. split_and!; done.
  - assert (labelMap ≠ ∅) as Hls by (by rewrite <- Set_String_empty_iff).
    split_and!; [|done|done].
    split; [|done]. intros Hnone. exfalso.
    destruct (Set_String_entries labelMap) as ([|entry entries] & Hperm & Heq).
    + by apply entries_nil_empty in Hperm.
    + apply (Join_rendered_not_free entry (rendered <$> entries)).
      rewrite fmap_cons in Heq. rewrite <- Heq, Hnone. by vm_compute.
Qed.

Lemma append_inj_l (k x y : string) : k +:+ x = k +:+ y → x = y.
Proof. induction k as [|c k IH]; simpl; [done|]. intros [=]. auto. Qed.

(** Entries with no ["="] in their keys are told apart by their rendering. *)
Lemma rendered_inj (entry1 entry2 : string * string) :
  free_of "=" entry1.1 → free_of "=" entry2.1 →
  rendered entry1 = rendered entry2 → entry1 = entry2.
Proof.
  destruct entry1 as [k1 v1], entry2 as [k2 v2]. simpl. intros H1 H2 Heq.
  change (k1 +:+ String "=" v1 = k2 +:+ String "=" v2) in Heq.
  assert (k1 = k2) as ->.
  { apply (f_equal (λ s, Split s "=")) in Heq.
    rewrite !Split_app_sep in Heq by done. by injection Heq. }
  apply append_inj_l in Heq. by injection Heq as ->.
Qed.

Lemma fmap_inj_on {A B} (f : A → B) (P : A → Prop) (l1 l2 : list A) :
  (∀ x y, P x → P y → f x = f y → x = y) →
  Forall P l1 → Forall P l2 → f <$> l1 = f <$> l2 → l1 = l2.
Proof.
  intros Hinj. revert l2.
  induction l1 as [|x l1 IH]; intros [|y l2] H1 H2 Heq; try done.
  apply Forall_cons in H1 as [Hx H1]. apply Forall_cons in H2 as [Hy H2].
  injection Heq as Hxy Heq. f_equal; auto.
Qed.

Lemma separable_entries (ls : LabelSet) (entries : list (string * string)) :
  separable ls → entries ≡ₚ map_to_list ls →
  Forall (λ entry, free_of "=" entry.1) entries
  ∧ Forall (free_of ",") (rendered <$> entries).
Proof.
  intros Hls Hperm. rewrite Forall_fmap, <- Forall_and.
  apply Forall_forall. intros [k v] Hin. rewrite Hperm in Hin.
  apply elem_of_map_to_list, Hls in Hin as (Hk1 & Hk2 & Hv). split; [done|].
  unfold compose, rendered. rewrite !free_of_app. simpl. split_and!; done.
Qed.

(** X8: on sets with no ["="] in a key and no [","] in a key or a value,
    [String] tells sets apart: two such sets are rendered to the same string
    if and only if [Equals] finds them equal. *)
Theorem Set_String_inj (a b : LabelSet) :
  separable a → separable b →
  (Set_String a = Set_String b ↔ Equals a b = true).
Proof.
  intros Ha Hb. rewrite Equals_true, size_contained_eq.
  split; [|by intros ->]. intros Heq.
  destruct (Set_String_entries a) as (ea & Hpa & Hsa).
  destruct (Set_String_entries b) as (eb & Hpb & Hsb).
  destruct (separable_entries a ea Ha Hpa) as [Hka Hca].
  destruct (separable_entries b eb Hb Hpb) as [Hkb Hcb].
  rewrite Hsa, Hsb in Heq.
  assert (ea = eb) as Hentries.
  { destruct ea as [|x ea], eb as [|y eb]; [done| | |].
    - symmetry in Heq. by apply Join_rendered_nonempty in Heq.
    - by apply Join_rendered_nonempty in Heq.
    - apply (f_equal (λ s, Split s ",")) in Heq.
      rewrite !Split_Join in Heq by done.
      eapply (fmap_inj_on rendered); [|exact Hka|exact Hkb|exact Heq].
      intros e1 e2. apply rendered_inj. }
  apply map_to_list_inj. by rewrite <- Hpa, <- Hpb, Hentries.
Qed.

Lemma Set_String_inj_witness :
  Set_String (<["a" := "x=y"]> {["b" := ""]})
  = Set_String (<["b" := ""]> {["a" := "x=y"]})
  ↔ Equals (<["a" := "x=y"]> {["b" := ""]})
           (<["b" := ""]> {["a" := "x=y"]}) = true.
Proof.
  apply (Set_String_inj (<["a" := "x=y"]> {["b" := ""]})
           (<["b" := ""]> {["a" := "x=y"]}));
    intros key value Hin; apply elem_of_map_to_list in Hin;
    vm_compute map_to_list in Hin;
    repeat (apply elem_of_cons in Hin as [[= -> ->]|Hin]);
    try (by apply elem_of_nil in Hin);
    (repeat split; try discriminate).
Defined.

(** ** What trimming and splitting keep *)

Lemma free_of_Forall (c : ascii) (s : string) :
  free_of c s ↔ Forall (λ x, x ≠ c) (list_ascii_of_string s).
Proof.
  induction s as [|x s IH]; simpl.
  - split; [constructor | done].
  - rewrite Forall_cons, IH. done.
Qed.

Lemma trimLeft_suffix (s : list ascii) : trimLeft s `suffix_of` s.
Proof.
  remember (length s) as n eqn:Hn. revert s Hn.
  induction n as [n IH] using lt_wf_ind. intros s ->.
  destruct s as [|a s1]; simpl; [done|].
  destruct (isSpace1 a).
  { apply suffix_cons_r, (IH (length s1)); [simpl; lia | done]. }
  destruct s1 as [|b s2]; [done|].
  destruct (isSpace2 a b).
  { do 2 apply suffix_cons_r. apply (IH (length s2)); [simpl; lia | done]. }
  destruct s2 as [|c s3]; [done|].
  destruct (isSpace3 a b c); [|done].
  do 3 apply suffix_cons_r. apply (IH (length s3)); [simpl; lia | done].
Qed.

Lemma trimRightRev_suffix (s : list ascii) : trimRightRev s `suffix_of` s.
Proof.
  remember (length s) as n eqn:Hn. revert s Hn.
  induction n as [n IH] using lt_wf_ind. intros s ->.
  destruct s as [|c s1]; simpl; [done|].
  destruct (isSpace1 c).
  { apply suffix_cons_r, (IH (length s1)); [simpl; lia | done]. }
  destruct s1 as [|b s2]; [done|].
  destruct (isSpace2 b c).
  { do 2 apply suffix_cons_r. apply (IH (length s2)); [simpl; lia | done]. }
  destruct s2 as [|a s3]; [done|].
  destruct (isSpace3 a b c); [|done].
  do 3 apply suffix_cons_r. apply (IH (length s3)); [simpl; lia | done].
Qed.

Lemma trimLeft_no_space (s : list ascii) : space_first (trimLeft s) = false.
Proof.
  remember (length s) as n eqn:Hn. revert s Hn.
  induction n as [n IH] using lt_wf_ind. intros s ->.
  destruct s as [|a s1]; simpl; [done|].
  destruct (isSpace1 a) eqn:Ha.
  { apply (IH (length s1)); [simpl; lia | done]. }
  destruct s1 as [|b s2]; [by simpl; rewrite Ha|].
  destruct (isSpace2 a b) eqn:Hab.
  { apply (IH (length s2)); [simpl; lia | done]. }
  destruct s2 as [|c s3]; [by simpl; rewrite Ha, Hab|].
  destruct (isSpace3 a b c) eqn:Habc.
  { apply (IH (length s3)); [simpl; lia | done]. }
  simpl. by rewrite Ha, Hab, Habc.
Qed.

Lemma trimRightRev_no_space (s : list ascii) :
  space_last (trimRightRev s) = false.
Proof.
  remember (length s) as n eqn:Hn. revert s Hn.
  induction n as [n IH] using lt_wf_ind. intros s ->.
  destruct s as [|c s1]; simpl; [done|].
  destruct (isSpace1 c) eqn:Hc.
  { apply (IH (length s1)); [simpl; lia | done]. }
  destruct s1 as [|b s2]; [by simpl; rewrite Hc|].
  destruct (isSpace2 b c) eqn:Hbc.
  { apply (IH (length s2)); [simpl; lia | done]. }
  destruct s2 as [|a s3]; [by simpl; rewrite Hc, Hbc|].
  destruct (isSpace3 a b c) eqn:Habc.
  { apply (IH (length s3)); [simpl; lia | done]. }
  simpl. by rewrite Hc, Hbc, Habc.
Qed.

(** White space in front of a string is in front of every extension of it. *)
Lemma space_first_app (r q : list ascii) :
  space_first r = true → space_first (r ++ q) = true.
Proof.
  destruct r as [|a [|b [|c r]]]; simpl; [done| | |done].
  - intros ->. by destruct q as [|? [|? ?]].
  - intros Hab. destruct q; simpl; by rewrite Hab.
Qed.

(** What [TrimSpace] returns has no white space in front or at its end. *)
Lemma TrimSpace_no_space (s : string) : space_around (TrimSpace s) = false.
Proof.
  unfold space_around, TrimSpace.
  rewrite list_ascii_of_string_of_list_ascii, reverse_involutive.
  rewrite trimRightRev_no_space, orb_false_r.
  set (l := trimLeft (list_ascii_of_string s)).
  destruct (trimRightRev_suffix (reverse l)) as [p Hp].
  apply (f_equal reverse) in Hp.
  rewrite reverse_involutive, reverse_app in Hp.
  destruct (space_first (reverse (trimRightRev (reverse l)))) eqn:Hfirst;
    [|done].
  apply (space_first_app _ (reverse p)) in Hfirst. rewrite <- Hp in Hfirst.
  unfold l in Hfirst. by rewrite trimLeft_no_space in Hfirst.
Qed.

(** [TrimSpace] brings in no byte that was not there. *)
Lemma TrimSpace_free_of (c : ascii) (s : string) :
  free_of c s → free_of c (TrimSpace s).
Proof.
  rewrite !free_of_Forall. unfold TrimSpace.
  rewrite list_ascii_of_string_of_list_ascii. intros Hall.
  destruct (trimLeft_suffix (list_ascii_of_string s)) as [p1 Hp1].
  rewrite Hp1, Forall_app in Hall. destruct Hall as [_ Hall].
  apply Forall_reverse in Hall.
  destruct (trimRightRev_suffix (reverse (trimLeft (list_ascii_of_string s))))
    as [p2 Hp2].
  rewrite Hp2, Forall_app in Hall. destruct Hall as [_ Hall].
  by apply Forall_reverse.
Qed.

Lemma Split_nonempty (s : string) (c : ascii) : Split s c ≠ [].
Proof.
  destruct s as [|x s]; simpl; [done|].
  destruct (Ascii.eqb x c); [done|]. by destruct (Split s c).
Qed.

(** The pieces of a split hold no separator, and no byte that the string
    does not hold. *)
Lemma Split_pieces_free (s : string) (c : ascii) :
  Forall (free_of c) (Split s c).
Proof.
  induction s as [|x s IH]; simpl; [by repeat constructor|].
  destruct (Ascii.eqb_spec x c) as [->|Hne]; [by constructor|].
  destruct (Split s c) as [|piece pieces]; [by repeat constructor|].
  apply Forall_cons in IH as [Hpiece Hpieces]. by repeat constructor.
Qed.

Lemma Split_pieces_free_other (s : string) (c d : ascii) :
  free_of d s → Forall (free_of d) (Split s c).
Proof.
  induction s as [|x s IH]; simpl; [by repeat constructor|].
  intros [Hx Hs]. specialize (IH Hs).
  destruct (Ascii.eqb x c); [by constructor|].
  destruct (Split s c) as [|piece pieces]; [by repeat constructor|].
  apply Forall_cons in IH as [Hpiece Hpieces]. by repeat constructor.
Qed.

Lemma Split_app (a b : string) (c : ascii) :
  Split (a +:+ String c b) c = Split a c ++ Split b c.
Proof.
  induction a as [|x a IH]; simpl.
  - by rewrite Ascii.eqb_refl.
  - destruct (Ascii.eqb x c); rewrite IH; [done|].
    pose proof (Split_nonempty a c). by destruct (Split a c).
Qed.

(** ** More on the parser *)

Section ParserMore.
Context `{V : Validator}.
Implicit Types (opts : list PathOption) (labels pre post : list string).

(** The four ways one turn of the loop can go. *)
Lemma parse_range_cons_cases opts (m : LabelSet) (label : string) labels :
  (length (Split label "=") ≠ 2
   ∧ parse_range opts m (label :: labels)
     = (m, Some (invalid_selector (Split label "="))))
  ∨ (length (Split label "=") = 2
     ∧ ∃ err, validateLabelKey (token_key label) (ToPath opts) = Some err
       ∧ parse_range opts m (label :: labels) = (m, Some (Invalid err)))
  ∨ (length (Split label "=") = 2
     ∧ validateLabelKey (token_key label) (ToPath opts) = None
     ∧ ∃ err,
         validateLabelValue (token_key label) (token_value label) (ToPath opts)
         = Some err
         ∧ parse_range opts m (label :: labels) = (m, Some (Invalid err)))
  ∨ (token_ok opts label
     ∧ parse_range opts m (label :: labels)
       = parse_range opts (<[token_key label := token_value label]> m) labels).
Proof.
  simpl. fold (token_key label). fold (token_value label).
  destruct (length (Split label "=") =? 2)%nat eqn:Hlen; simpl.
  - apply Nat.eqb_eq in Hlen.
    destruct (validateLabelKey (token_key label) (ToPath opts))
      as [err|] eqn:Hkey; [right; left; eauto|].
    destruct (validateLabelValue (token_key label) (token_value label)
                (ToPath opts)) as [err|] eqn:Hvalue.
    + right; right; left. eauto.
    + right; right; right. done.
  - apply Nat.eqb_neq in Hlen. by left.
Qed.

(** Once the loop has failed, more tokens change nothing. *)
Lemma parse_range_app_error opts (m m' : LabelSet) labels post (e : error) :
  parse_range opts m labels = (m', Some e) →
  parse_range opts m (labels ++ post) = (m', Some e).
Proof.
  revert m. induction labels as [|label labels IH]; intros m Hrun; [done|].
  simpl in Hrun |- *.
  destruct (negb (length (Split label "=") =? 2)%nat); [done|].
  destruct (validateLabelKey _ _); [done|].
  destruct (validateLabelValue _ _ _); [done|].
  by apply IH.
Qed.

(** An accepted token with no [","] gives a parseable entry. *)
Lemma token_parseable opts (label : string) :
  free_of "," label → token_ok opts label →
  parseable opts (token_key label) (token_value label).
Proof.
  intros Hcomma (Hlen & Hkey & Hvalue).
  pose proof (Split_pieces_free label "=") as Heq.
  pose proof (Split_pieces_free_other label "=" "," Hcomma) as Hco.
  unfold token_key, token_value in *.
  destruct (Split label "=") as [|x [|y [|z l]]]; try done. simpl in *.
  apply Forall_cons in Heq as [Hx [Hy _]%Forall_cons].
  apply Forall_cons in Hco as [Hx' [Hy' _]%Forall_cons].
  split_and!; auto using TrimSpace_free_of, TrimSpace_no_space.
Qed.

Lemma parse_range_parseable opts (m : LabelSet) labels :
  Forall (free_of ",") labels →
  (∀ key value, m !! key = Some value → parseable opts key value) →
  ∀ key value, (parse_range opts m labels).1 !! key = Some value →
    parseable opts key value.
Proof.
  revert m. induction labels as [|label labels IH]; intros m Hfree Hm; [done|].
  apply Forall_cons in Hfree as [Hlabel Hfree].
  destruct (parse_range_cons_cases opts m label labels)
    as [(_ & ->) | [(_ & err & _ & ->) | [(_ & _ & err & _ & ->) | (Hok & ->)]]];
    [done..|].
  apply IH; [done|]. intros key value.
  destruct (decide (token_key label = key)) as [<-|Hne].
  - rewrite lookup_insert_eq. intros [= <-]. by apply token_parseable.
  - rewrite lookup_insert_ne by done. apply Hm.
Qed.

Lemma parse_parseable opts (selector : string) (key value : string) :
  (ConvertSelectorToLabelsMap selector opts).1 !! key = Some value →
  parseable opts key value.
Proof.
  unfold ConvertSelectorToLabelsMap.
  destruct (String.length selector =? 0)%nat; [done|]. cbv zeta.
  apply parse_range_parseable; [apply Split_pieces_free | done].
Qed.

(** Rendering a set of parseable entries and parsing the result gives the
    set. *)
Lemma render_parse opts (ls : LabelSet) :
  (∀ key value, ls !! key = Some value → parseable opts key value) →
  ConvertSelectorToLabelsMap (Set_String ls) opts = (ls, None).
Proof.
  intros Hls.
  destruct (Set_String_entries ls) as (entries & Hperm & ->).
  assert (Forall (λ entry, parseable opts entry.1 entry.2) entries) as Hall.
  { apply Forall_forall. intros [k v] Hin. rewrite Hperm in Hin.
    apply elem_of_map_to_list in Hin. by apply Hls. }
  destruct (accumulate_rendered opts ∅ entries Hall) as [Hoks Hacc].
  destruct entries as [|[k v] entries].
  - by apply entries_nil_empty in Hperm as ->.
  - unfold ConvertSelectorToLabelsMap.
    rewrite selector_nonempty by apply Join_rendered_nonempty.
    cbv zeta. rewrite Split_Join; [|done|].
    + rewrite parse_range_ok, Hacc by done.
      rewrite (assign_range_entries _ ls) by done.
      by rewrite (right_id_L ∅ (∪)).
    + apply Forall_fmap. eapply Forall_impl; [exact Hall|].
      intros [k' v'] Hkv. by eapply rendered_free_of_comma.
Qed.

Lemma accumulate_union (m : LabelSet) labels :
  accumulate m labels = accumulated labels ∪ m.
Proof.
  unfold accumulated. revert m.
  induction labels as [|label labels IH]; intros m.
  - symmetry. apply (left_id_L ∅ (∪)).
  - change (accumulate m (label :: labels))
      with (accumulate (<[token_key label := token_value label]> m) labels).
    change (accumulate ∅ (label :: labels))
      with (accumulate (<[token_key label := token_value label]> ∅) labels).
    rewrite (IH (<[_ := _]> m)), (IH (<[_ := _]> ∅)).
    rewrite <- (assoc_L (∪)). f_equal.
    by rewrite insert_empty, <- insert_union_singleton_l.
Qed.

Lemma parse_nonempty_inv opts (selector : string) (m : LabelSet) :
  selector ≠ "" →
  ConvertSelectorToLabelsMap selector opts = (m, None) →
  Forall (token_ok opts) (Split selector ",")
  ∧ m = accumulated (Split selector ",").
Proof.
  intros Hne. unfold ConvertSelectorToLabelsMap.
  rewrite selector_nonempty by done. cbv zeta. intros Hrun.
  pose proof (parse_range_None _ _ _ _ Hrun) as Hall. split; [done|].
  rewrite parse_range_ok in Hrun by done. by injection Hrun.
Qed.

Lemma append_nonempty (a b : string) : a ≠ "" → a +:+ b ≠ "".
Proof. by destruct a. Qed.

(** X9: the parser stops at the first token that a validator refuses, when
    no token before it is malformed or refused: it returns the error of the
    validator (of the key when the key is refused, whatever the value is;
    of the value when only the value is refused) together with the map
    accumulated from the tokens before; the tokens after play no part. *)
Theorem parse_first_refused opts (selector : string) pre (bad : string) post
    (err : Aggregate) :
  selector ≠ "" →
  Split selector "," = pre ++ bad :: post →
  Forall (token_ok opts) pre →
  length (Split bad "=") = 2 →
  validateLabelKey (token_key bad) (ToPath opts) = Some err
  ∨ (validateLabelKey (token_key bad) (ToPath opts) = None
     ∧ validateLabelValue (token_key bad) (token_value bad) (ToPath opts)
       = Some err) →
  ConvertSelectorToLabelsMap selector opts
  = (accumulated pre, Some (Invalid err)).
Proof.
  intros Hne Hsplit Hpre Hlen Hbad. unfold ConvertSelectorToLabelsMap.
  rewrite selector_nonempty by done. cbv zeta. rewrite Hsplit.
  clear Hsplit. unfold accumulated. generalize (∅ : LabelSet).
  induction Hpre as [|label pre Hok Hpre IH]; intros m.
  - change (parse_range opts m (bad :: post) = (m, Some (Invalid err))).
    destruct (parse_range_cons_cases opts m bad post)
      as [(? & _) | [(_ & e & Hk & ->) | [(_ & Hk & e & Hv & ->) | (Hok & _)]]];
      [done| | |].
    + destruct Hbad as [?|[? ?]]; congruence.
    + destruct Hbad as [?|[? ?]]; congruence.
    + destruct Hok as (_ & ? & ?). destruct Hbad as [?|[? ?]]; congruence.
  - simpl app. rewrite parse_range_cons_ok by done. apply IH.
Qed.

(** X10: every entry of the map that the parser returns, with or without
    an error, has been accepted by both validators, holds no ["="] and no
    [","], and has no white space in front or at its end. *)
Theorem parse_entries_parseable opts (selector : string) (key value : string) :
  (ConvertSelectorToLabelsMap selector opts).1 !! key = Some value →
  free_of "=" key ∧ free_of "," key ∧ free_of "=" value ∧ free_of "," value
  ∧ TrimSpace key = key ∧ TrimSpace value = value
  ∧ validateLabelKey key (ToPath opts) = None
  ∧ validateLabelValue key value (ToPath opts) = None.
Proof.
  intros Hin. rewrite !TrimSpace_id. by apply (parse_parseable opts selector).
Qed.

(** X11: the map that the parser returns, with or without an error, is
    rendered by [String] to a selector that the parser reads back, without
    error, as that same map. *)
Theorem parse_render_parse opts (selector : string) :
  ConvertSelectorToLabelsMap
    (Set_String (ConvertSelectorToLabelsMap selector opts).1) opts
  = ((ConvertSelectorToLabelsMap selector opts).1, None).
Proof. apply render_parse. intros key value. apply parse_parseable. Qed.

(** X12: two selectors that are not empty and parse without error, joined
    by a comma, parse without error to the [Merge] of their sets, the second
    over the first. *)
Theorem parse_concat_Merge opts (selector1 selector2 : string)
    (m1 m2 : LabelSet) :
  selector1 ≠ "" → selector2 ≠ "" →
  ConvertSelectorToLabelsMap selector1 opts = (m1, None) →
  ConvertSelectorToLabelsMap selector2 opts = (m2, None) →
  ConvertSelectorToLabelsMap (selector1 +:+ "," +:+ selector2) opts
  = (Merge m1 m2, None).
Proof.
  intros Hne1 Hne2 [Hok1 ->]%parse_nonempty_inv [Hok2 ->]%parse_nonempty_inv;
    try done.
  unfold ConvertSelectorToLabelsMap.
  rewrite selector_nonempty by by apply append_nonempty. cbv zeta.
  change (selector1 +:+ "," +:+ selector2)
    with (selector1 +:+ String "," selector2).
  rewrite Split_app, parse_range_ok by by apply Forall_app.
  f_equal. unfold accumulate at 1. rewrite foldl_app.
  fold (accumulate ∅ (Split selector1 ",")).
  fold (accumulate (accumulate ∅ (Split selector1 ",")) (Split selector2 ",")).
  by rewrite accumulate_union, Merge_union.
Qed.

(** X13: when a selector that is not empty fails to parse, every selector
    that continues it after a comma fails with the same error and the same
    partial map. *)
Theorem parse_error_extends opts (selector more : string) (m : LabelSet)
    (e : error) :
  selector ≠ "" →
  ConvertSelectorToLabelsMap selector opts = (m, Some e) →
  ConvertSelectorToLabelsMap (selector +:+ "," +:+ more) opts = (m, Some e).
Proof.
  intros Hne. unfold ConvertSelectorToLabelsMap.
  rewrite !selector_nonempty by (done || by apply append_nonempty).
  cbv zeta. intros Hrun.
  change (selector +:+ "," +:+ more) with (selector +:+ String "," more).
  rewrite Split_app. by apply parse_range_app_error.
Qed.

End ParserMore.

Lemma parse_first_refused_witness :
  ConvertSelectorToLabelsMap (V := refuse_empty_key) "a=b,=c,d" []
  = (accumulated ["a=b"],
     Some (Invalid (V := refuse_empty_key) "name part must be non-empty")).
Proof.
  apply (parse_first_refused (V := refuse_empty_key) [] "a=b,=c,d"
           ["a=b"] "=c" ["d"]).
  - discriminate.
  - reflexivity.
  - repeat constructor.
  - reflexivity.
  - left. reflexivity.
Defined.

Lemma parse_entries_parseable_witness :
  free_of "=" "a" ∧ free_of "," "a" ∧ free_of "=" "b" ∧ free_of "," "b"
  ∧ TrimSpace "a" = "a" ∧ TrimSpace "b" = "b"
  ∧ validateLabelKey (Validator := refuse_empty_key) "a"
      (ToPath (Validator := refuse_empty_key) []) = None
  ∧ validateLabelValue (Validator := refuse_empty_key) "a" "b"
      (ToPath (Validator := refuse_empty_key) []) = None.
Proof.
  apply (parse_entries_parseable (V := refuse_empty_key) [] " a = b ,c" "a" "b").
  vm_compute. reflexivity.
Defined.

Lemma parse_concat_Merge_witness :
  ConvertSelectorToLabelsMap (V := accept_all) ("a=1,b=2" +:+ "," +:+ "a=3") []
  = (Merge (<["b" := "2"]> {["a" := "1"]}) {["a" := "3"]}, None).
Proof.
  apply (parse_concat_Merge (V := accept_all) [] "a=1,b=2" "a=3").
  - discriminate.
  - discriminate.
  - vm_compute. reflexivity.
  - vm_compute. reflexivity.
Defined.

Lemma parse_error_extends_witness :
  ConvertSelectorToLabelsMap (V := accept_all) ("a=1,b" +:+ "," +:+ "c=3") []
  = ({["a" := "1"]}, Some (Errorf "invalid selector: [b]")).
Proof.
  apply (parse_error_extends (V := accept_all) [] "a=1,b" "c=3").
  - discriminate.
  - vm_compute. reflexivity.
Defined.

(** ** The order of visit *)

(** X15: [Conflicts] gives the same answer in whatever order its loop
    visits the smaller set. *)
Theorem Conflicts_any_order (labels1 labels2 : LabelSet)
    (entries : list (string * string)) :
  entries ≡ₚ map_to_list
               (if (size labels2 <? size labels1)%nat then labels2 else labels1) →
  Conflicts_range
    (if (size labels2 <? size labels1)%nat then labels1 else labels2) entries
  = Conflicts labels1 labels2.
Proof.
  unfold Conflicts. destruct (size labels2 <? size labels1)%nat;
    apply Conflicts_order.
Qed.

Lemma Conflicts_any_order_witness :
  Conflicts_range
    (if (size (<["a" := "1"]> {["b" := "2"]} : LabelSet)
         <? size (<["a" := "1"]> {["b" := "3"]} : LabelSet))%nat
     then <["a" := "1"]> {["b" := "3"]} else <["a" := "1"]> {["b" := "2"]})
    [("b", "3"); ("a", "1")]
  = Conflicts (<["a" := "1"]> {["b" := "3"]}) (<["a" := "1"]> {["b" := "2"]}).
Proof.
  apply (Conflicts_any_order (<["a" := "1"]> {["b" := "3"]})
           (<["a" := "1"]> {["b" := "2"]}) [("b", "3"); ("a", "1")]).
  vm_compute. apply Permutation_swap.
Defined.

(** X16: [Equals] gives the same answer in whatever order its loop visits
    the first set. *)
Theorem Equals_any_order (labels1 labels2 : LabelSet)
    (entries : list (string * string)) :
  entries ≡ₚ map_to_list labels1 →
  (if negb (size labels1 =? size labels2)%nat then false
   else Equals_range labels2 entries)
  = Equals labels1 labels2.
Proof.
  intros Hperm. unfold Equals.
  destruct (negb (size labels1 =? size labels2)%nat); [done|].
  by apply Equals_order.
Qed.

Lemma Equals_any_order_witness :
  (if negb (size (<["a" := "1"]> {["b" := "3"]} : LabelSet)
            =? size (<["a" := "1"]> {["b" := "2"]} : LabelSet))%nat
   then false
   else Equals_range (<["a" := "1"]> {["b" := "2"]}) [("b", "3"); ("a", "1")])
  = Equals (<["a" := "1"]> {["b" := "3"]}) (<["a" := "1"]> {["b" := "2"]}).
Proof.
  apply (Equals_any_order (<["a" := "1"]> {["b" := "3"]})
           (<["a" := "1"]> {["b" := "2"]}) [("b", "3"); ("a", "1")]).
  vm_compute. apply Permutation_swap.
Defined.

Lemma Merge_order_witness :
  assign_range (assign_range ∅ [("b", "3"); ("a", "1")]) [("b", "2"); ("a", "0")]
  = Merge (<["a" := "1"]> {["b" := "3"]}) (<["a" := "0"]> {["b" := "2"]}).
Proof.
  apply (Merge_order (<["a" := "1"]> {["b" := "3"]})
           (<["a" := "0"]> {["b" := "2"]}));
    vm_compute; apply Permutation_swap.
Defined.

(** ** Writing to the map that Merge returns *)

Lemma store_Merge_eq (h : Store.store) (labels1 labels2 : Store.ref) :
  Store.valid h labels1 → Store.valid h labels2 →
  Store.Merge h labels1 labels2
  = Some (<[fresh (dom h)
            := Merge (Store.load h labels1) (Store.load h labels2)]> h,
          Store.ptr (fresh (dom h))).
Proof.
  intros H1 H2.
  assert (h !! fresh (dom h) = None) as Hfresh
    by (apply not_elem_of_dom, is_fresh).
  set (a := fresh (dom h)) in *.
  unfold Store.Merge, Store.alloc. fold a.
  rewrite (store_assign_range _ a ∅) by apply lookup_insert_eq.
  simpl. rewrite insert_insert_eq.
  rewrite (store_assign_range _ a (assign_range ∅ (map_to_list
    (Store.load (<[a := ∅]> h) labels1)))) by apply lookup_insert_eq.
  simpl. rewrite insert_insert_eq.
  rewrite (load_insert_fresh h a _ labels1) by done.
  by rewrite (load_insert_fresh h a _ labels2) by done.
Qed.

(** X18: the map that [Merge] returns can be written to, also when both
    arguments are nil, and writing to it does not show in the arguments:
    they still read as before the call, and the map returned reads as the
    merge with the entry written over it. *)
Theorem Merge_result_writable (h h' : Store.store) (labels1 labels2 r : Store.ref)
    (k v : string) :
  Store.valid h labels1 → Store.valid h labels2 →
  Store.Merge h labels1 labels2 = Some (h', r) →
  ∃ h'' : Store.store,
    Store.assign h' r k v = Some h''
    ∧ Store.load h'' labels1 = Store.load h labels1
    ∧ Store.load h'' labels2 = Store.load h labels2
    ∧ Store.load h'' r
      = <[k := v]> (Merge (Store.load h labels1) (Store.load h labels2)).
Proof.
  intros H1 H2. rewrite store_Merge_eq by done. intros [= <- <-].
  assert (h !! fresh (dom h) = None) as Hfresh
    by (apply not_elem_of_dom, is_fresh).
  set (a := fresh (dom h)) in *.
  eexists. split_and!.
  - simpl. rewrite lookup_insert_eq. reflexivity.
  - rewrite insert_insert_eq. by apply load_insert_fresh.
  - rewrite insert_insert_eq. by apply load_insert_fresh.
  - simpl. by rewrite lookup_insert_eq.
Qed.

Lemma Merge_result_writable_witness :
  ∃ h'' : Store.store,
    Store.assign {[1%positive := ∅]} (Store.ptr 1%positive) "k" "v" = Some h''
    ∧ Store.load h'' Store.nil = Store.load ∅ Store.nil
    ∧ Store.load h'' Store.nil = Store.load ∅ Store.nil
    ∧ Store.load h'' (Store.ptr 1%positive)
      = <["k" := "v"]> (Merge (Store.load ∅ Store.nil) (Store.load ∅ Store.nil)).
Proof.
  apply (Merge_result_writable ∅ {[1%positive := ∅]} Store.nil Store.nil
           (Store.ptr 1%positive) "k" "v"); [done | done |].
  vm_compute. reflexivity.
Defined.

Lemma FormatLabels_spec_witness :
  (FormatLabels {["a" := "b"]} = "<none>" ↔ ({["a" := "b"]} : LabelSet) = ∅)
  ∧ (({["a" := "b"]} : LabelSet) ≠ ∅
     → FormatLabels {["a" := "b"]} = Set_String {["a" := "b"]})
  ∧ FormatLabels {["a" := "b"]} ≠ "".
Proof. apply (FormatLabels_spec {["a" := "b"]}). Defined.

(** ** Trimming, said without TrimSpace *)

Ltac space_codes :=
  unfold isSpace1, isSpace2, isSpace3, lead_byte in *; cbv zeta in *;
  repeat first
    [ rewrite orb_true_iff in * | rewrite andb_true_iff in *
    | rewrite N.eqb_eq in * | rewrite N.leb_le in * ].

Ltac not_space := apply not_true_iff_false; intros ?; space_codes; lia.

Lemma isSpace2_not_1 (a b : ascii) : isSpace2 a b = true → isSpace1 a = false.
Proof. intros ?. not_space. Qed.

Lemma isSpace3_not_1 (a b c : ascii) :
  isSpace3 a b c = true → isSpace1 a = false.
Proof. intros ?. not_space. Qed.

Lemma isSpace3_not_2 (a b c : ascii) :
  isSpace3 a b c = true → isSpace2 a b = false.
Proof. intros ?. not_space. Qed.

Lemma isSpace2_not_1_last (b c : ascii) :
  isSpace2 b c = true → isSpace1 c = false.
Proof. intros ?. not_space. Qed.

Lemma isSpace3_not_1_last (a b c : ascii) :
  isSpace3 a b c = true → isSpace1 c = false.
Proof. intros ?. not_space. Qed.

Lemma isSpace3_not_2_last (a b c : ascii) :
  isSpace3 a b c = true → isSpace2 b c = false.
Proof. intros ?. not_space. Qed.

Lemma lead_not_2 (a x : ascii) : lead_byte x → isSpace2 a x = false.
Proof. intros ?. not_space. Qed.

Lemma lead_not_3_mid (a x y : ascii) : lead_byte x → isSpace3 a x y = false.
Proof. intros ?. not_space. Qed.

Lemma lead_not_3_last (a b x : ascii) : lead_byte x → isSpace3 a b x = false.
Proof. intros ?. not_space. Qed.

Lemma blank_head_lead (x : ascii) (ws : list ascii) :
  blank (x :: ws) → lead_byte x.
Proof. intros Hws. inversion Hws; subst; space_codes; lia. Qed.

Lemma runs_app p1 p2 p3 (s t : list ascii) :
  runs p1 p2 p3 s → runs p1 p2 p3 t → runs p1 p2 p3 (s ++ t).
Proof. induction 1; intros Ht; simpl; [done|by constructor; auto..]. Qed.

Lemma runs_reverse p1 p2 p3 (s : list ascii) :
  runs p1 p2 p3 s →
  runs p1 (λ c b, p2 b c) (λ c b a, p3 a b c) (reverse s).
Proof.
  induction 1 as [|a s Ha _ IH|a b s Hab _ IH|a b c s Habc _ IH].
  - constructor.
  - rewrite reverse_cons. apply runs_app; [done|].
    by apply runs_1; [|constructor].
  - rewrite !reverse_cons, <- app_assoc. apply runs_app; [done|].
    by apply runs_2; [|constructor].
  - rewrite !reverse_cons, <- !app_assoc. apply runs_app; [done|].
    by apply runs_3; [|constructor].
Qed.

Lemma blank_reverse (s : list ascii) : blank s → blank_rev (reverse s).
Proof. apply runs_reverse. Qed.

Lemma blank_rev_reverse (s : list ascii) : blank_rev s → blank (reverse s).
Proof. intros Hs. exact (runs_reverse _ _ _ s Hs). Qed.

(** Trimming passes over white space. *)
Lemma trimLeft_blank (ws l : list ascii) :
  blank ws → trimLeft (ws ++ l) = trimLeft l.
Proof.
  induction 1 as [|a s Ha _ IH|a b s Hab _ IH|a b c s Habc _ IH].
  - done.
  - simpl. by rewrite Ha.
  - simpl. by rewrite (isSpace2_not_1 a b), Hab.
  - simpl. by rewrite (isSpace3_not_1 a b c), (isSpace3_not_2 a b c), Habc.
Qed.

Lemma trimRightRev_blank (ws l : list ascii) :
  blank_rev ws → trimRightRev (ws ++ l) = trimRightRev l.
Proof.
  induction 1 as [|c s Hc _ IH|c b s Hbc _ IH|c b a s Habc _ IH].
  - done.
  - simpl. by rewrite Hc.
  - simpl. by rewrite (isSpace2_not_1_last b c), Hbc.
  - simpl.
    by rewrite (isSpace3_not_1_last a b c), (isSpace3_not_2_last a b c), Habc.
Qed.

(** What trimming removes is white space. *)
Lemma trimLeft_split (s : list ascii) :
  ∃ ws, blank ws ∧ s = ws ++ trimLeft s.
Proof.
  remember (length s) as n eqn:Hn. revert s Hn.
  induction n as [n IH] using lt_wf_ind. intros s ->.
  destruct s as [|a s1]; simpl; [by exists []; split; [constructor|]|].
  destruct (isSpace1 a) eqn:Ha.
  { destruct (IH (length s1) ltac:(simpl; lia) s1 eq_refl) as (ws & Hws & Heq).
    exists (a :: ws). split; [by constructor|]. simpl. by rewrite <- Heq. }
  destruct s1 as [|b s2]; [by exists []; split; [constructor|]|].
  destruct (isSpace2 a b) eqn:Hab.
  { destruct (IH (length s2) ltac:(simpl; lia) s2 eq_refl) as (ws & Hws & Heq).
    exists (a :: b :: ws). split; [by apply runs_2|]. simpl. by rewrite <- Heq. }
  destruct s2 as [|c s3]; [by exists []; split; [constructor|]|].
  destruct (isSpace3 a b c) eqn:Habc; [|by exists []; split; [constructor|]].
  destruct (IH (length s3) ltac:(simpl; lia) s3 eq_refl) as (ws & Hws & Heq).
  exists (a :: b :: c :: ws). split; [by apply runs_3|]. simpl. by rewrite <- Heq.
Qed.

Lemma trimRightRev_split (s : list ascii) :
  ∃ ws, blank_rev ws ∧ s = ws ++ trimRightRev s.
Proof.
  remember (length s) as n eqn:Hn. revert s Hn.
  induction n as [n IH] using lt_wf_ind. intros s ->.
  destruct s as [|c s1]; simpl; [by exists []; split; [constructor|]|].
  destruct (isSpace1 c) eqn:Hc.
  { destruct (IH (length s1) ltac:(simpl; lia) s1 eq_refl) as (ws & Hws & Heq).
    exists (c :: ws). split; [by constructor|]. simpl. by rewrite <- Heq. }
  destruct s1 as [|b s2]; [by exists []; split; [constructor|]|].
  destruct (isSpace2 b c) eqn:Hbc.
  { destruct (IH (length s2) ltac:(simpl; lia) s2 eq_refl) as (ws & Hws & Heq).
    exists (c :: b :: ws). split; [by apply runs_2|]. simpl. by rewrite <- Heq. }
  destruct s2 as [|a s3]; [by exists []; split; [constructor|]|].
  destruct (isSpace3 a b c) eqn:Habc; [|by exists []; split; [constructor|]].
  destruct (IH (length s3) ltac:(simpl; lia) s3 eq_refl) as (ws & Hws & Heq).
  exists (c :: b :: a :: ws). split; [by apply runs_3|]. simpl. by rewrite <- Heq.
Qed.

(** White space after a string puts no white space in front of it. *)
Lemma space_first_app_blank (s ws : list ascii) :
  space_first s = false → s ≠ [] → blank ws → space_first (s ++ ws) = false.
Proof.
  intros Hs Hne Hws. destruct ws as [|x ws]; [by rewrite app_nil_r|].
  pose proof (blank_head_lead x ws Hws) as Hlead.
  destruct s as [|a [|b [|c r]]]; [done| | |done]; simpl in Hs |- *.
  - rewrite Hs. destruct ws as [|y ws]; simpl.
    + by apply lead_not_2.
    + by rewrite lead_not_2, lead_not_3_mid.
  - rewrite Hs. simpl. by apply lead_not_3_last.
Qed.

Lemma list_ascii_nil (s : string) : list_ascii_of_string s = [] → s = "".
Proof. by destruct s. Qed.

(** [TrimSpace] returns the string without the white space around it. *)
Lemma TrimSpace_padded (raw core : string) :
  padded raw core → TrimSpace raw = core.
Proof.
  intros (ws1 & ws2 & H1 & H2 & Hraw & [Hfirst Hlast]%orb_false_iff).
  unfold TrimSpace. rewrite Hraw, trimLeft_blank by done.
  destruct (decide (list_ascii_of_string core = [])) as [Hnil|Hne].
  - rewrite Hnil. simpl. rewrite <- (app_nil_r ws2), trimLeft_blank by done.
    by apply list_ascii_nil in Hnil as ->.
  - rewrite trimLeft_id by by apply space_first_app_blank.
    rewrite reverse_app, trimRightRev_blank by by apply blank_reverse.
    rewrite trimRightRev_id, reverse_involutive by done.
    apply string_of_list_ascii_of_string.
Qed.

Lemma padded_TrimSpace (raw : string) : padded raw (TrimSpace raw).
Proof.
  destruct (trimLeft_split (list_ascii_of_string raw)) as (ws1 & Hws1 & Hl).
  destruct (trimRightRev_split (reverse (trimLeft (list_ascii_of_string raw))))
    as (wsr & Hwsr & Hr).
  exists ws1, (reverse wsr). split_and!.
  - done.
  - by apply blank_rev_reverse.
  - unfold TrimSpace. rewrite list_ascii_of_string_of_list_ascii.
    rewrite <- reverse_app, <- Hr, reverse_involutive. done.
  - apply TrimSpace_no_space.
Qed.

Lemma Join_cons_char (a : ascii) (piece : string) (pieces : list string)
    (sep : string) :
  Join (String a piece :: pieces) sep = String a (Join (piece :: pieces) sep).
Proof. by destruct pieces. Qed.

(** Joining the pieces of a split with the separator gives the string. *)
Lemma Join_Split (s : string) (c : ascii) : Join (Split s c) (String c "") = s.
Proof.
  induction s as [|x s IH]; [done|]. simpl.
  pose proof (Split_nonempty s c) as Hne.
  destruct (Ascii.eqb_spec x c) as [->|Hxc].
  - destruct (Split s c) as [|piece pieces]; [done|].
    change (Join ("" :: piece :: pieces) (String c ""))
      with (String c (Join (piece :: pieces) (String c ""))).
    by rewrite IH.
  - destruct (Split s c) as [|piece pieces]; [done|].
    by rewrite Join_cons_char, IH.
Qed.

(** A token is read as a key and a value exactly when it has one ["="], and
    then the parser takes that key and that value from it. *)
Lemma reads_token (label key value : string) :
  reads label key value →
  length (Split label "=") = 2
  ∧ token_key label = key ∧ token_value label = value.
Proof.
  intros (rawk & rawv & -> & Hk & Hv & Hpk & Hpv).
  unfold token_key, token_value.
  change (rawk +:+ "=" +:+ rawv) with (rendered (rawk, rawv)).
  rewrite Split_rendered by done. simpl.
  by rewrite (TrimSpace_padded rawk key), (TrimSpace_padded rawv value).
Qed.

Lemma token_reads (label : string) :
  length (Split label "=") = 2 →
  reads label (token_key label) (token_value label).
Proof.
  intros Hlen. pose proof (Join_Split label "=") as Hjoin.
  pose proof (Split_pieces_free label "=") as Hfree.
  unfold token_key, token_value.
  destruct (Split label "=") as [|x [|y [|z l]]]; try done. simpl in *.
  apply Forall_cons in Hfree as [Hx [Hy _]%Forall_cons].
  exists x, y. split_and!; auto using padded_TrimSpace.
Qed.

Lemma token_key_reads (label key : string) :
  length (Split label "=") = 2 →
  token_key label = key ↔ ∃ value, reads label key value.
Proof.
  intros Hlen. split.
  - intros <-. exists (token_value label). by apply token_reads.
  - intros (value & Hreads). by apply reads_token in Hreads as (_ & ? & _).
Qed.

Lemma accumulate_dom (m : LabelSet) (labels : list string) (key : string) :
  key ∈ dom (accumulate m labels)
  ↔ key ∈ dom m ∨ ∃ label, label ∈ labels ∧ token_key label = key.
Proof.
  revert m. induction labels as [|label labels IH]; intros m.
  - split; [by left|]. intros [?|(label & Hin & _)]; [done|].
    by apply elem_of_nil in Hin.
  - change (accumulate m (label :: labels))
      with (accumulate (<[token_key label := token_value label]> m) labels).
    rewrite IH, dom_insert, elem_of_union, elem_of_singleton. split.
    + intros [[->|?]|(label' & Hin & Hkey)].
      * right. exists label. split; [left|done].
      * by left.
      * right. exists label'. split; [by right|done].
    + intros [?|(label' & Hin & Hkey)]; [by left; right|].
      apply elem_of_cons in Hin as [->|Hin]; [by left; left|].
      right. by exists label'.
Qed.

(** ** Repeated keys *)

(** C8, as stated, fails when a token between two tokens with the same key
    is not accepted.  In ["a=1,b,a=2"] the key ["a"] is in the first and in
    the third token, and no validator refuses anything; the parser stops at
    ["b"], returns an error, and the map it returns reads ["a"] as ["1"],
    the value of the first token, not of the latest. *)
Lemma parse_repeated_key_after_malformed :
  Split "a=1,b,a=2" "," = ["a=1"; "b"; "a=2"]
  ∧ reads "a=1" "a" "1" ∧ reads "a=2" "a" "2"
  ∧ ConvertSelectorToLabelsMap (V := accept_all) "a=1,b,a=2" []
    = ({["a" := "1"]}, Some (Errorf "invalid selector: [b]"))
  ∧ (ConvertSelectorToLabelsMap (V := accept_all) "a=1,b,a=2" []).2 ≠ None
  ∧ (ConvertSelectorToLabelsMap (V := accept_all) "a=1,b,a=2" []).1 !! "a"
    ≠ Some "2".
Proof.
  split_and!; try by vm_compute.
  - exists "a", "1". split_and!; [done|by repeat split..| |];
      exists [], []; by repeat constructor.
  - exists "a", "2". split_and!; [done|by repeat split..| |];
      exists [], []; by repeat constructor.
Qed.

Section RepeatedKeys.
Context `{V : Validator}.
Implicit Types (opts : list PathOption) (pre post : list string).

(** C8, amended: when every token of the selector splits in two at ["="]
    and passes both validators, a key that several tokens give makes no
    error: the parser succeeds.  The set it returns is the one accumulated
    from the tokens; a token read as [key=value], up to white space around
    the key and around the value, makes the key read as that value unless a
    later token is read with the same key, so a repeated key reads as the
    value of its latest token; the keys of the set are the keys read from
    the tokens, no more and no fewer, and none is listed twice. *)
Theorem parse_duplicate_keys opts (selector : string) :
  Forall (token_ok opts) (Split selector ",") →
  ∃ m : LabelSet,
    ConvertSelectorToLabelsMap selector opts = (m, None)
    ∧ m = accumulated (Split selector ",")
    ∧ (∀ pre label post,
         Split selector "," = pre ++ label :: post →
         Forall (λ later, token_key later ≠ token_key label) post →
         m !! token_key label = Some (token_value label))
    ∧ (∀ pre label post key value,
         Split selector "," = pre ++ label :: post →
         reads label key value →
         Forall (λ later, ∀ value', ¬ reads later key value') post →
         m !! key = Some value)
    ∧ (∀ key, key ∈ dom m
         ↔ ∃ label value, label ∈ Split selector "," ∧ reads label key value)
    ∧ NoDup (map_to_list m).*1.
Proof.
  intros Hall. exists (accumulated (Split selector ",")).
  split_and!; [|done| | | |].
  - destruct selector as [|c selector].
    + apply Forall_inv in Hall as (Hlen & _). done.
    + unfold ConvertSelectorToLabelsMap. rewrite selector_nonempty by done.
      by apply parse_range_ok.
  - intros pre label post -> Hpost. by apply accumulate_last.
  - intros pre label post key value Hsplit Hreads Hpost.
    apply reads_token in Hreads as (_ & <- & <-).
    rewrite Hsplit in Hall |- *. apply accumulate_last.
    apply Forall_app in Hall as [_ [_ Hok]%Forall_cons].
    apply Forall_forall. intros later Hin Hkey.
    pose proof (proj1 (Forall_forall _ _) Hok later Hin) as (Hlen & _).
    pose proof (proj1 (Forall_forall _ _) Hpost later Hin) as Hno.
    apply (Hno (token_value later)). rewrite <- Hkey. by apply token_reads.
  - intros key. unfold accumulated. rewrite accumulate_dom, dom_empty. split.
    + intros [Hin|(label & Hin & Hkey)]; [by apply elem_of_empty in Hin|].
      pose proof (proj1 (Forall_forall _ _) Hall label Hin) as (Hlen & _).
      exists label, (token_value label). split; [done|].
      rewrite <- Hkey. by apply token_reads.
    + intros (label & value & Hin & Hreads). right. exists label.
      split; [done|]. by apply reads_token in Hreads as (_ & ? & _).
  - apply NoDup_fst_map_to_list.
Qed.

End RepeatedKeys.

Lemma parse_duplicate_keys_witness :
  ∃ m : LabelSet,
    ConvertSelectorToLabelsMap (V := accept_all) "a=1,b=2, a = 3 " [] = (m, None)
    ∧ m = accumulated (Split "a=1,b=2, a = 3 " ",")
    ∧ (∀ pre label post,
         Split "a=1,b=2, a = 3 " "," = pre ++ label :: post →
         Forall (λ later, token_key later ≠ token_key label) post →
         m !! token_key label = Some (token_value label))
    ∧ (∀ pre label post key value,
         Split "a=1,b=2, a = 3 " "," = pre ++ label :: post →
         reads label key value →
         Forall (λ later, ∀ value', ¬ reads later key value') post →
         m !! key = Some value)
    ∧ (∀ key, key ∈ dom m
         ↔ ∃ label value,
             label ∈ Split "a=1,b=2, a = 3 " "," ∧ reads label key value)
    ∧ NoDup (map_to_list m).*1.
Proof.
  apply (parse_duplicate_keys (V := accept_all) [] "a=1,b=2, a = 3 ").
  repeat constructor.
Defined.

Example parse_duplicate_keys_ex2 :
  ConvertSelectorToLabelsMap (V := accept_all) "a=1,b=2, a = 3 " []
  = (<["b" := "2"]> {["a" := "3"]}, None).
Proof. vm_compute. reflexivity. Qed.
